(** * wasm-game-of-life: the browser-side rendering script

    A shallow embedding of [src/www/index.js] (the script with the FPS
    counter) and of [src/unnamed/part_000] (the same script without it).

    - The external engine ([Universe] and the wasm linear memory) is an
      interface: the class [Engine].
    - The page's mutable state is threaded explicitly through every
      function; calls that leave the script (engine methods, canvas
      context operations, [requestAnimationFrame], [cancelAnimationFrame])
      are appended to a log in the order in which they are made.
    - Grid dimensions, loop counters, array indices and frame handles are
      [nat]; canvas coordinates, cell coordinates computed from a click and
      bit patterns are [Z]; the numbers of the click listener are the
      rationals that IEEE 754 doubles denote, every operation on them
      rounded to the nearest double by [round64]; the arithmetic of the FPS
      counter is kept behind the interface [JsNumber]. *)

From Stdlib Require Import ZArith QArith Qround Qpower List String Ascii Strings.Byte.
From Stdlib Require Import DecimalString Lia Bool Arith PeanoNat Morphisms Setoid.
Import ListNotations.

Local Open Scope string_scope.
Local Open Scope Z_scope.
Local Open Scope nat_scope.
Local Open Scope list_scope.

(** ** The external engine *)

(** [import { Universe } from "wasm-game-of-life"] and
    [import { memory } from "wasm-game-of-life/wasm_game_of_life_bg"].
    [U] is the engine's state; [memory_buffer u] is the content of
    [memory.buffer] while the engine is in state [u].  [width()] and
    [height()] return 32-bit unsigned integers. *)
Class Engine (U : Type) : Type := {
  Universe_new : U;
  universe_width : U -> nat;
  universe_height : U -> nat;
  universe_tick : U -> U;
  universe_toggle_cell : U -> Z -> Z -> U;
  universe_cells : U -> nat;
  memory_buffer : U -> list byte;
  universe_width_u32 : forall u, (Z.of_nat (universe_width u) < 2 ^ 32)%Z;
  universe_height_u32 : forall u, (Z.of_nat (universe_height u) < 2 ^ 32)%Z
}.

(** ** What the script does to the outside world *)

(** Operations on the 2D context [ctx]. *)
Inductive CanvasOp : Type :=
| BeginPath
| StrokeStyle (color : string)
| MoveTo (x y : Z)
| LineTo (x y : Z)
| Stroke
| FillStyle (color : string)
| FillRect (x y w h : Z).

Inductive Effect : Type :=
| Tick
| ToggleCell (row col : Z)
| Cells
| Draw (op : CanvasOp)
| RequestFrame (id : nat)
| CancelFrame (id : nat).

Definition CELL_SIZE : Z := 5.
Definition GRID_COLOR : string := "#CCCCCC".
Definition DEAD_COLOR : string := "#FFFFFF".
Definition ALIVE_COLOR : string := "#000000".

(** ** Reading the packed cells *)

(** [new Uint8Array(buffer, byteOffset, length)]: the [length] bytes of
    [buffer] from [byteOffset] on.  (The constructor raises a RangeError
    when the buffer is shorter than [byteOffset + length]; here the view
    is then just shorter.) *)
Definition Uint8Array (buffer : list byte) (byteOffset length : nat) : list byte :=
  firstn length (skipn byteOffset buffer).

(** [arr[i]] used as an operand of [&]: an element of a Uint8Array is its
    value in 0..255, and [undefined] (an index outside the array) is
    converted to 0. *)
Definition int32_of_element (e : option byte) : Z :=
  match e with
  | Some b => Z.of_N (Byte.to_N b)
  | None => 0%Z
  end.

(** [bitIsSet(n, arr)]. *)
Definition bitIsSet (n : nat) (arr : list byte) : bool :=
  let byte := n / 8 in
  let mask := Z.shiftl 1 (Z.of_nat (n mod 8)) in
  Z.eqb (Z.land (int32_of_element (nth_error arr byte)) mask) mask.

(** ** Arithmetic on doubles *)

(** A finite double is the rational it denotes.  An arithmetic operation
    of the script on doubles is the exact operation on rationals followed
    by [round64], the rounding of IEEE 754 binary64 to the nearest double,
    ties to the even one.  (A result beyond the largest double, which the
    script would carry on with as [Infinity], is rounded here as if the
    exponent were unbounded.) *)

(** The exponent of a positive rational: [2 ^ e <= q < 2 ^ (e + 1)]. *)
Definition Qlog2 (q : Q) : Z :=
  let k := (Z.log2 (Qnum q) - Z.log2 (Zpos (Qden q)))%Z in
  if Qle_bool (2 ^ k) q then k else (k - 1)%Z.

(** The exponent of the last place of the doubles around a positive [q]:
    53 significant bits, and never below that of the subnormal numbers. *)
Definition quantum (q : Q) : Z := Z.max (Qlog2 q - 52) (-1074).

(** The integer nearest to [m], the even one of the two when [m] is half
    way. *)
Definition nearest_even (m : Q) : Z :=
  let lo := Qfloor m in
  match (m - inject_Z lo ?= 1 # 2)%Q with
  | Lt => lo
  | Gt => (lo + 1)%Z
  | Eq => if Z.even lo then lo else (lo + 1)%Z
  end.

(** The multiple of [2 ^ f] nearest to [q]. *)
Definition round_to (f : Z) (q : Q) : Q :=
  (inject_Z (nearest_even (q / 2 ^ f)) * 2 ^ f)%Q.

Definition round64 (q : Q) : Q :=
  match (q ?= 0)%Q with
  | Eq => 0%Q
  | Gt => Qred (round_to (quantum q) q)
  | Lt => Qred (- round_to (quantum (- q)) (- q))
  end.

Section Script.
Context {U : Type} {engine : Engine U}.

(** [const width = universe.width(); const height = universe.height();]
    read once from the universe the script constructs. *)
Definition width : nat := universe_width Universe_new.
Definition height : nat := universe_height Universe_new.

(** [getIndex(row, column)]. *)
Definition getIndex (row column : nat) : nat := row * width + column.

(** The state both versions of the script share. *)
Record Core : Type := mkCore {
  universe : U;
  animationId : option nat;        (* [None] is [null] *)
  frame_handle : nat;              (* last handle the host gave out *)
  frame_callbacks : list nat;      (* pending callbacks, all [renderLoop] *)
  playPauseText : string;          (* [playPauseButton.textContent] *)
  log : list Effect
}.

Definition emit (es : list Effect) (s : Core) : Core :=
  mkCore (universe s) (animationId s) (frame_handle s) (frame_callbacks s)
         (playPauseText s) (log s ++ es).

Definition set_universe (u : U) (s : Core) : Core :=
  mkCore u (animationId s) (frame_handle s) (frame_callbacks s)
         (playPauseText s) (log s).

Definition set_animationId (a : option nat) (s : Core) : Core :=
  mkCore (universe s) a (frame_handle s) (frame_callbacks s)
         (playPauseText s) (log s).

Definition set_playPauseText (t : string) (s : Core) : Core :=
  mkCore (universe s) (animationId s) (frame_handle s) (frame_callbacks s)
         t (log s).

(** *** The host's animation frames *)

(** [requestAnimationFrame(renderLoop)]: the host increments its handle,
    appends the callback under it and returns the handle (never 0). *)
Definition requestAnimationFrame (s : Core) : nat * Core :=
  let id := S (frame_handle s) in
  (id, mkCore (universe s) (animationId s) id (frame_callbacks s ++ [id])
              (playPauseText s) (log s ++ [RequestFrame id])).

(** The handle [cancelAnimationFrame] receives for a value of
    [animationId]: [null] converts to 0, which is no callback's handle. *)
Definition handle_of (a : option nat) : nat :=
  match a with Some id => id | None => 0 end.

(** [cancelAnimationFrame(id)]. *)
Definition cancelAnimationFrame (id : nat) (s : Core) : Core :=
  mkCore (universe s) (animationId s) (frame_handle s)
         (filter (fun h => negb (Nat.eqb h id)) (frame_callbacks s))
         (playPauseText s) (log s ++ [CancelFrame id]).

(** *** Drawing *)

(** [drawGrid()]. *)
Definition drawGrid_ops : list CanvasOp :=
  [BeginPath; StrokeStyle GRID_COLOR]
  ++ flat_map (fun i =>
       [MoveTo (Z.of_nat i * (CELL_SIZE + 1) + 1) 0;
        LineTo (Z.of_nat i * (CELL_SIZE + 1) + 1)
               ((CELL_SIZE + 1) * Z.of_nat height + 1)])
     (seq 0 (S width))
  ++ flat_map (fun j =>
       [MoveTo 0 (Z.of_nat j * (CELL_SIZE + 1) + 1);
        LineTo ((CELL_SIZE + 1) * Z.of_nat width + 1)
               (Z.of_nat j * (CELL_SIZE + 1) + 1)])
     (seq 0 (S height))
  ++ [Stroke].

Definition drawGrid (s : Core) : Core := emit (map Draw drawGrid_ops) s.

(** The body of the inner loop of [drawCells], for one cell. *)
Definition cell_ops (cells : list byte) (row col : nat) : list CanvasOp :=
  let idx := getIndex row col in
  [FillStyle (if bitIsSet idx cells then ALIVE_COLOR else DEAD_COLOR);
   FillRect (Z.of_nat col * (CELL_SIZE + 1) + 1)
            (Z.of_nat row * (CELL_SIZE + 1) + 1)
            CELL_SIZE CELL_SIZE].

Definition drawCells_ops (cells : list byte) : list CanvasOp :=
  [BeginPath]
  ++ flat_map (fun row => flat_map (fun col => cell_ops cells row col)
                                   (seq 0 width))
              (seq 0 height)
  ++ [Stroke].

(** [new Uint8Array(memory.buffer, cellsPtr, width * height / 8)]: the
    quotient is truncated to an integer length. *)
Definition cells_view (u : U) : list byte :=
  let cellsPtr := universe_cells u in
  Uint8Array (memory_buffer u) cellsPtr (width * height / 8).

(** [drawCells()]. *)
Definition drawCells (s : Core) : Core :=
  let s1 := emit [Cells] s in
  let cells := cells_view (universe s1) in
  emit (map Draw (drawCells_ops cells)) s1.

(** *** Pause and resume *)

(** [isPaused()]. *)
Definition isPaused (s : Core) : bool :=
  match animationId s with None => true | Some _ => false end.

(** [pause()]. *)
Definition pause (s : Core) : Core :=
  let s1 := set_playPauseText "▶" s in
  let s2 := cancelAnimationFrame (handle_of (animationId s1)) s1 in
  set_animationId None s2.

(** *** Clicks on the canvas *)

(** What the click listener reads: the event's [clientX] and [clientY]
    and the rectangle [canvas.getBoundingClientRect()] returns at that
    moment, all of them doubles. *)
Record Click : Type := mkClick {
  clientX : Q;
  clientY : Q;
  rect_left : Q;
  rect_top : Q;
  rect_width : Q;
  rect_height : Q
}.

(** [canvas.width] and [canvas.height], as set when the script loads. *)
Definition canvas_width : Z := (CELL_SIZE + 1) * Z.of_nat width + 1.
Definition canvas_height : Z := (CELL_SIZE + 1) * Z.of_nat height + 1.

(** [canvas.width / boundingRect.width] and
    [canvas.height / boundingRect.height]. *)
Definition scaleX (c : Click) : Q :=
  round64 (inject_Z canvas_width / rect_width c).
Definition scaleY (c : Click) : Q :=
  round64 (inject_Z canvas_height / rect_height c).

(** [(event.clientX - boundingRect.left) * scaleX] and
    [(event.clientY - boundingRect.top) * scaleY]: a subtraction, then a
    multiplication, each rounded. *)
Definition canvasLeft (c : Click) : Q :=
  round64 (round64 (clientX c - rect_left c) * scaleX c).
Definition canvasTop (c : Click) : Q :=
  round64 (round64 (clientY c - rect_top c) * scaleY c).

(** [Math.min(Math.floor(canvasTop / (CELL_SIZE + 1)), height - 1)] and the
    same for the column: the division is rounded, [Math.floor] and
    [Math.min] are exact. *)
Definition click_row (c : Click) : Z :=
  Z.min (Qfloor (round64 (canvasTop c / inject_Z (CELL_SIZE + 1))))
        (Z.of_nat height - 1).
Definition click_col (c : Click) : Z :=
  Z.min (Qfloor (round64 (canvasLeft c / inject_Z (CELL_SIZE + 1))))
        (Z.of_nat width - 1).

(** [universe.tick()] and [universe.toggle_cell(row, col)]: the engine
    mutates its state in place. *)
Definition tick (s : Core) : Core :=
  emit [Tick] (set_universe (universe_tick (universe s)) s).

Definition toggle_cell (row col : Z) (s : Core) : Core :=
  emit [ToggleCell row col]
       (set_universe (universe_toggle_cell (universe s) row col) s).

(** The listener of [canvas.addEventListener("click", ...)]. *)
Definition on_canvas_click (c : Click) (s : Core) : Core :=
  let row := click_row c in
  let col := click_col c in
  let s1 := toggle_cell row col s in
  let s2 := drawGrid s1 in
  drawCells s2.

(** The rectangle of a canvas that is laid out with a positive size; a
    rectangle of width or height 0 makes the script divide by zero. *)
Definition laid_out (c : Click) : Prop :=
  (0 < rect_width c)%Q /\ (0 < rect_height c)%Q.

(** The page before the script runs: nothing is pending. *)
Definition boot_core (button_text : string) (handle : nat) : Core :=
  mkCore Universe_new None handle [] button_text [].

End Script.

Arguments Core U : clear implicits.

(** ** Events the host delivers *)
Inductive Event : Type :=
| AnimationFrame
| PlayPauseClick
| CanvasClick (c : Click).

(** ** [src/unnamed/part_000]: the script without the FPS counter *)
Module Plain.
Section Plain.
Context {U : Type} {engine : Engine U}.

(** [renderLoop()]. *)
Definition renderLoop (s : Core U) : Core U :=
  let s1 := tick s in
  let s2 := drawGrid s1 in
  let s3 := drawCells s2 in
  let (id, s4) := requestAnimationFrame s3 in
  set_animationId (Some id) s4.

(** [play()]. *)
Definition play (s : Core U) : Core U :=
  let s1 := set_playPauseText "⏸" s in
  renderLoop s1.

(** The listener of [playPauseButton.addEventListener("click", ...)]. *)
Definition on_play_pause_click (s : Core U) : Core U :=
  if isPaused s then play s else pause s.

(** An animation frame: the host takes the list of pending callbacks,
    empties it, and runs them in order. *)
Definition on_animation_frame (s : Core U) : Core U :=
  let callbacks := frame_callbacks s in
  let s1 := mkCore (universe s) (animationId s) (frame_handle s) []
                   (playPauseText s) (log s) in
  fold_left (fun st _ => renderLoop st) callbacks s1.

Definition step (s : Core U) (e : Event) : Core U :=
  match e with
  | AnimationFrame => on_animation_frame s
  | PlayPauseClick => on_play_pause_click s
  | CanvasClick c => on_canvas_click c s
  end.

Definition run (evs : list Event) (s : Core U) : Core U := fold_left step evs s.

(** The statements at the end of the script. *)
Definition script (s : Core U) : Core U :=
  let s1 := drawGrid s in
  let s2 := drawCells s1 in
  play s2.

End Plain.
End Plain.

(** ** The FPS counter of [src/www/index.js] *)

(** The arithmetic the counter does on JavaScript numbers (IEEE doubles,
    with [Infinity]); the counter's bookkeeping does not depend on how these
    operations round. *)
Class JsNumber (num : Type) : Type := {
  num_lit : Z -> num;                 (* an integer literal or an array length *)
  Infinity : num;
  num_neg : num -> num;
  num_add : num -> num -> num;
  num_sub : num -> num -> num;
  num_mul : num -> num -> num;
  num_div : num -> num -> num;
  Math_min : num -> num -> num;
  Math_max : num -> num -> num;
  Math_round : num -> num;
  num_to_string : num -> string
}.

Module Fps.
Section Fps.
Context {num : Type} {js : JsNumber num}.

(** The fields of the object [fps]; [text] is [this.fps.textContent]. *)
Record t : Type := mk {
  frames : list num;
  lastFrameTimeStamp : num;
  text : string
}.

(** The constructor; [now] is the value of [performance.now()] and
    [text0] the text the element has in the document. *)
Definition new (now : num) (text0 : string) : t := mk [] now text0.

(** The [for] loop of [render]: one pass over the buffer, from index 0,
    accumulating [(sum, min, max)]. *)
Definition stats (fs : list num) : num * num * num :=
  fold_left (fun acc x =>
               let '(sum, min, max) := acc in
               (num_add sum x, Math_min x min, Math_max x max))
            fs (num_lit 0, Infinity, num_neg Infinity).

Definition newline : string := String (ascii_of_nat 10) EmptyString.

(** The template string of [render], trimmed. *)
Definition stats_text (fps mean min max : num) : string :=
  ("Frames per Second:" ++ newline
  ++ "         latest = " ++ num_to_string (Math_round fps) ++ newline
  ++ "avg of last 100 = " ++ num_to_string (Math_round mean) ++ newline
  ++ "min of last 100 = " ++ num_to_string (Math_round min) ++ newline
  ++ "max of last 100 = " ++ num_to_string (Math_round max))%string.

(** [this.frames.push(fps); if (this.frames.length > 100) this.frames.shift();] *)
Definition push_frame (fps : num) (fs : list num) : list num :=
  let pushed := fs ++ [fps] in
  if 100 <? List.length pushed then tl pushed else pushed.

(** [render()]; [now] is the value [performance.now()] returns. *)
Definition render (now : num) (f : t) : t :=
  let delta := num_sub now (lastFrameTimeStamp f) in
  let fps := num_mul (num_div (num_lit 1) delta) (num_lit 1000) in
  let frames' := push_frame fps (frames f) in
  let '(sum, min, max) := stats frames' in
  let mean := num_div sum (num_lit (Z.of_nat (List.length frames'))) in
  mk frames' now (stats_text fps mean min max).

(** What [render] displays for a buffer [fs] whose latest entry is
    [fps]. *)
Definition display (fps : num) (fs : list num) : string :=
  let '(sum, min, max) := stats fs in
  stats_text fps (num_div sum (num_lit (Z.of_nat (List.length fs)))) min max.

End Fps.
End Fps.

Arguments Fps.t num : clear implicits.

(** ** [src/www/index.js]: the script with the FPS counter *)
Module WithFps.
Section WithFps.
Context {U : Type} {engine : Engine U} {num : Type} {js : JsNumber num}.

(** [performance.now()]: its successive values, in the order of the
    calls. *)
Variable clock : nat -> num.

Record Page : Type := mkPage {
  core : Core U;
  fps : Fps.t num;
  clock_reads : nat        (* calls of [performance.now()] so far *)
}.

Definition on_core (f : Core U -> Core U) (p : Page) : Page :=
  mkPage (f (core p)) (fps p) (clock_reads p).

(** [fps.render()]. *)
Definition fps_render (p : Page) : Page :=
  let now := clock (clock_reads p) in
  mkPage (core p) (Fps.render now (fps p)) (S (clock_reads p)).

(** [renderLoop()]. *)
Definition renderLoop (p : Page) : Page :=
  let p1 := fps_render p in
  let p2 := on_core tick p1 in
  let p3 := on_core drawGrid p2 in
  let p4 := on_core drawCells p3 in
  let (id, c5) := requestAnimationFrame (core p4) in
  mkPage (set_animationId (Some id) c5) (fps p4) (clock_reads p4).

(** [isPaused()], [play()], [pause()]. *)
Definition isPaused (p : Page) : bool :=
  match animationId (core p) with None => true | Some _ => false end.

Definition play (p : Page) : Page :=
  let p1 := on_core (set_playPauseText "⏸") p in
  renderLoop p1.

Definition pause (p : Page) : Page :=
  let p1 := on_core (set_playPauseText "▶") p in
  let p2 := on_core (cancelAnimationFrame (handle_of (animationId (core p1)))) p1 in
  on_core (set_animationId None) p2.

(** The listener of [playPauseButton.addEventListener("click", ...)]. *)
Definition on_play_pause_click (p : Page) : Page :=
  if isPaused p then play p else pause p.

(** The listener of [canvas.addEventListener("click", ...)]. *)
Definition on_canvas_click (c : Click) (p : Page) : Page :=
  let row := click_row c in
  let col := click_col c in
  let p1 := on_core (toggle_cell row col) p in
  let p2 := on_core drawGrid p1 in
  on_core drawCells p2.

(** An animation frame: the host takes the list of pending callbacks,
    empties it, and runs them in order. *)
Definition on_animation_frame (p : Page) : Page :=
  let callbacks := frame_callbacks (core p) in
  let c := core p in
  let p1 := mkPage (mkCore (universe c) (animationId c) (frame_handle c) []
                           (playPauseText c) (log c))
                   (fps p) (clock_reads p) in
  fold_left (fun st _ => renderLoop st) callbacks p1.

Definition step (p : Page) (e : Event) : Page :=
  match e with
  | AnimationFrame => on_animation_frame p
  | PlayPauseClick => on_play_pause_click p
  | CanvasClick c => on_canvas_click c p
  end.

Definition run (evs : list Event) (p : Page) : Page := fold_left step evs p.

(** The page before the statements at the end of the script: the [fps]
    object is constructed (one reading of the clock), the universe is
    new, and no frame is pending. *)
Definition boot (button_text fps_text : string) (handle : nat) : Page :=
  mkPage (boot_core button_text handle) (Fps.new (clock 0) fps_text) 1.

(** The statements at the end of the script. *)
Definition script (p : Page) : Page :=
  let p1 := on_core drawGrid p in
  let p2 := on_core drawCells p1 in
  play p2.

End WithFps.
End WithFps.

(** ** Small concrete instances, to run the script on *)

(** An engine whose state is its linear memory, with the packed cells at
    address [ptr]; a tick reverses the bytes and a toggle leaves them
    alone. *)
Definition bytes_engine_at (ptr w h : nat)
    (Hw : (Z.of_nat w < 2 ^ 32)%Z) (Hh : (Z.of_nat h < 2 ^ 32)%Z)
    (mem : list byte) : Engine (list byte) :=
  {| Universe_new := mem;
     universe_width := fun _ => w;
     universe_height := fun _ => h;
     universe_tick := fun u => rev u;
     universe_toggle_cell := fun u _ _ => u;
     universe_cells := fun _ => ptr;
     memory_buffer := fun u => u;
     universe_width_u32 := fun _ => Hw;
     universe_height_u32 := fun _ => Hh |}.

Definition bytes_engine (w h : nat)
    (Hw : (Z.of_nat w < 2 ^ 32)%Z) (Hh : (Z.of_nat h < 2 ^ 32)%Z)
    (mem : list byte) : Engine (list byte) :=
  bytes_engine_at 0 w h Hw Hh mem.

(** A 4 x 4 universe: 16 cells in two bytes (of a four-byte block). *)
Definition engine4x4 : Engine (list byte) :=
  bytes_engine 4 4 eq_refl eq_refl [x05; x80; x00; x00]%byte.

(** A 3 x 3 universe: 9 cells, the ninth one (row 2, column 2) alive; its
    bit is bit 0 of the second byte. *)
Definition engine3x3 : Engine (list byte) :=
  bytes_engine 3 3 eq_refl eq_refl [x00; x01; x00; x00]%byte.

(** A 3 x 3 universe whose cells start at address 4, after four bytes of
    other data: cell (0, 1) (bit 1 of the first byte of the cells) and
    cell (2, 2) (bit 0 of the second) are alive. *)
Definition engine3x3_at4 : Engine (list byte) :=
  bytes_engine_at 4 3 3 eq_refl eq_refl
    [xff; xff; xff; xff; x02; x01; x00; x00]%byte.

(** Exact rational arithmetic extended with the two infinities and NaN,
    standing in for JavaScript numbers (no rounding, no negative zero). *)
Inductive xnum : Type :=
| Fin (q : Q)
| PosInf
| NegInf
| NaN.

Definition xneg (a : xnum) : xnum :=
  match a with
  | Fin q => Fin (Qred (- q))
  | PosInf => NegInf
  | NegInf => PosInf
  | NaN => NaN
  end.

Definition xadd (a b : xnum) : xnum :=
  match a, b with
  | NaN, _ | _, NaN => NaN
  | PosInf, NegInf | NegInf, PosInf => NaN
  | PosInf, _ | _, PosInf => PosInf
  | NegInf, _ | _, NegInf => NegInf
  | Fin x, Fin y => Fin (Qred (x + y))
  end.

(** The infinity with the sign of [q * s], where [s] is the sign of the
    infinite operand; NaN when [q] is 0. *)
Definition signed_inf (q : Q) (positive : bool) : xnum :=
  match (q ?= 0)%Q with
  | Eq => NaN
  | Gt => if positive then PosInf else NegInf
  | Lt => if positive then NegInf else PosInf
  end.

Definition xmul (a b : xnum) : xnum :=
  match a, b with
  | NaN, _ | _, NaN => NaN
  | Fin x, Fin y => Fin (Qred (x * y))
  | Fin x, PosInf | PosInf, Fin x => signed_inf x true
  | Fin x, NegInf | NegInf, Fin x => signed_inf x false
  | PosInf, PosInf | NegInf, NegInf => PosInf
  | PosInf, NegInf | NegInf, PosInf => NegInf
  end.

Definition xdiv (a b : xnum) : xnum :=
  match a, b with
  | NaN, _ | _, NaN => NaN
  | Fin x, Fin y =>
      match (y ?= 0)%Q with
      | Eq => signed_inf x true
      | _ => Fin (Qred (x / y))
      end
  | Fin _, _ => Fin 0
  | PosInf, Fin y => match (y ?= 0)%Q with Lt => NegInf | _ => PosInf end
  | NegInf, Fin y => match (y ?= 0)%Q with Lt => PosInf | _ => NegInf end
  | _, _ => NaN
  end.

Definition xmin (a b : xnum) : xnum :=
  match a, b with
  | NaN, _ | _, NaN => NaN
  | NegInf, _ | _, NegInf => NegInf
  | PosInf, c | c, PosInf => c
  | Fin x, Fin y => if Qle_bool x y then Fin x else Fin y
  end.

Definition xmax (a b : xnum) : xnum :=
  match a, b with
  | NaN, _ | _, NaN => NaN
  | PosInf, _ | _, PosInf => PosInf
  | NegInf, c | c, NegInf => c
  | Fin x, Fin y => if Qle_bool x y then Fin y else Fin x
  end.

(** [Math.round]: the nearest integer, halves upwards. *)
Definition xround (a : xnum) : xnum :=
  match a with
  | Fin q => Fin (inject_Z (Qfloor (q + (1 # 2))))
  | _ => a
  end.

Definition xshow (a : xnum) : string :=
  match a with
  | Fin q => NilZero.string_of_int (Z.to_int (Qfloor q))
  | PosInf => "Infinity"
  | NegInf => "-Infinity"
  | NaN => "NaN"
  end.

Definition xnum_number : JsNumber xnum :=
  {| num_lit := fun z => Fin (inject_Z z);
     Infinity := PosInf;
     num_neg := xneg;
     num_add := xadd;
     num_sub := fun a b => xadd a (xneg b);
     num_mul := xmul;
     num_div := xdiv;
     Math_min := xmin;
     Math_max := xmax;
     Math_round := xround;
     num_to_string := xshow |}.

(** A clock that advances by 16 milliseconds per reading. *)
Definition clock16 (n : nat) : xnum := Fin (inject_Z (16 * Z.of_nat n)).

(** A click in the middle of a canvas laid out at its own size, and one
    above the canvas's top edge. *)
Definition click_inside : Click := mkClick 10 8 0 0 25 25.
Definition click_above : Click := mkClick 10 (-3) 0 0 25 25.
(** A click on the bottom-right corner pixel of the 25 x 25 canvas. *)
Definition click_corner : Click := mkClick 24 24 0 0 25 25.
(** The 25 x 25 canvas shown 1225 pixels wide and high, clicked at
    (294, 588): the scale [25 / 1225] is not a double. *)
Definition click_scaled_down : Click := mkClick 294 588 0 0 1225 1225.
(** The canvas shown 5 pixels wide and high, clicked at the double nearest
    to 1.2. *)
Definition click_scaled_up : Click :=
  mkClick (5404319552844595 # 4503599627370496) 1 0 0 5 5.

(** The page of [index.js] over the 4 x 4 universe, once the script has
    run. *)
Definition page4x4 : @WithFps.Page (list byte) xnum :=
  WithFps.script (engine := engine4x4) (js := xnum_number) clock16
    (WithFps.boot (engine := engine4x4) clock16 "" "" 0).

(** ** Vocabulary of the properties *)

(** Bit number [n] of a bit-packed array: bit [n mod 8] of byte [n / 8];
    an array that has no such byte has no such bit set. *)
Definition packed_bit (arr : list byte) (n : nat) : bool :=
  match nth_error arr (n / 8) with
  | Some b => Z.testbit (Z.of_N (Byte.to_N b)) (Z.of_nat (n mod 8))
  | None => false
  end.

(** The canvas operations in a log, and the calls to the engine in it. *)
Definition drawing (l : list Effect) : list CanvasOp :=
  flat_map (fun e => match e with Draw op => [op] | _ => [] end) l.

Definition engine_calls (l : list Effect) : list Effect :=
  filter (fun e => match e with Tick | ToggleCell _ _ | Cells => true | _ => false end) l.

(** What [renderLoop] alone does: ticks and requests for frames. *)
Definition loop_effects (l : list Effect) : list Effect :=
  filter (fun e => match e with Tick | RequestFrame _ => true | _ => false end) l.

(** The events that can arrive while the game stays paused: a click on the
    play-pause button would invoke [play()]. *)
Definition play_free (evs : list Event) : bool :=
  forallb (fun e => match e with PlayPauseClick => false | _ => true end) evs.

Definition canvas_clicks (evs : list Event) : list Event :=
  filter (fun e => match e with CanvasClick _ => true | _ => false end) evs.

(** The handle in [animationId] is the one pending callback; [null] means
    that none is pending. *)
Definition pending_matches {U : Type} (s : Core U) : Prop :=
  frame_callbacks s
  = match animationId s with None => [] | Some id => [id] end.

(** "No drawing occurs after cancellation until resumed", for the events
    [evs] that arrive after [pause()] ran on the page [p]. *)
Definition no_drawing_until_play {U : Type} {engine : Engine U}
    {num : Type} {js : JsNumber num} (clock : nat -> num)
    (p : @WithFps.Page U num) (evs : list Event) : Prop :=
  play_free evs = true ->
  drawing (log (WithFps.core (WithFps.run clock evs (WithFps.pause p))))
  = drawing (log (WithFps.core (WithFps.pause p))).

(** The buffer of the page's [fps] object holds at most 100 timings. *)
Definition buffer_bounded {U num : Type} (p : @WithFps.Page U num) : Prop :=
  List.length (Fps.frames (WithFps.fps p)) <= 100.

(** A point of the canvas's coordinate space, its right and bottom edges
    included, and a rectangle that lies within it. *)
Definition on_canvas {U : Type} {engine : Engine U} (x y : Z) : Prop :=
  (0 <= x <= canvas_width)%Z /\ (0 <= y <= canvas_height)%Z.

Definition rect_on_canvas {U : Type} {engine : Engine U} (x y w h : Z) : Prop :=
  (0 <= x)%Z /\ (0 <= y)%Z /\ (0 <= w)%Z /\ (0 <= h)%Z
  /\ (x + w <= canvas_width)%Z /\ (y + h <= canvas_height)%Z.

(** The points a list of canvas operations moves or draws a line to, and
    the rectangles it fills. *)
Definition path_points (ops : list CanvasOp) : list (Z * Z) :=
  flat_map (fun op => match op with
                      | MoveTo x y | LineTo x y => [(x, y)]
                      | _ => []
                      end) ops.

Definition filled_rects (ops : list CanvasOp) : list (Z * Z * Z * Z) :=
  flat_map (fun op => match op with
                      | FillRect x y w h => [(x, y, w, h)]
                      | _ => []
                      end) ops.

(** How often a log ticks the universe and requests a frame. *)
Definition count_ticks (l : list Effect) : nat :=
  List.length (filter (fun e => match e with Tick => true | _ => false end) l).

Definition count_requests (l : list Effect) : nat :=
  List.length (filter (fun e => match e with RequestFrame _ => true | _ => false end) l).

(** The label of the play-pause button says what a click will do. *)
Definition label_matches {U : Type} (s : Core U) : Prop :=
  playPauseText s = if isPaused s then "▶" else "⏸".

(** The timings of the frames whose time stamps are [nows], the one before
    them being [prev]: [1 / delta * 1000] for each pair of neighbours. *)
Fixpoint timings {num : Type} {js : JsNumber num} (prev : num) (nows : list num)
    : list num :=
  match nows with
  | [] => []
  | now :: rest =>
      num_mul (num_div (num_lit 1) (num_sub now prev)) (num_lit 1000)
      :: timings now rest
  end.

(** What [renderLoop] keeps in step on the page of [index.js]: the clock
    readings, the ticks, the frame requests and the state of the [fps]
    object, which is the constructed one after one [render] per tick. *)
Definition in_step {U : Type} {num : Type} {js : JsNumber num}
    (clock : nat -> num) (fps_text : string) (p : @WithFps.Page U num) : Prop :=
  WithFps.clock_reads p = S (count_ticks (log (WithFps.core p)))
  /\ count_requests (log (WithFps.core p)) = count_ticks (log (WithFps.core p))
  /\ WithFps.fps p
     = fold_left (fun g t => Fps.render t g)
         (map clock (seq 1 (count_ticks (log (WithFps.core p)))))
         (Fps.new (clock 0) fps_text).

(** From [s] to [s'] no tick is taken back, and the host's handle has
    advanced by the number of frames requested in between. *)
Definition advances {U : Type} (s s' : Core U) : Prop :=
  count_ticks (log s) <= count_ticks (log s')
  /\ frame_handle s' + count_requests (log s)
     = frame_handle s + count_requests (log s').


(** * Properties *)

(** ** The script on small inputs *)

Example bitIsSet_two_bytes :
  map (fun n => bitIsSet n [x05; x80]%byte) [0; 1; 2; 7; 8; 15; 16]%nat
  = [true; false; true; false; false; true; false].
Proof. reflexivity. Qed.

Example click_cells_4x4 :
  (@click_row _ engine4x4 click_inside, @click_col _ engine4x4 click_inside,
   @click_row _ engine4x4 click_corner, @click_col _ engine4x4 click_corner,
   @click_row _ engine4x4 click_above)
  = (1, 1, 3, 3, -1)%Z.
Proof. reflexivity. Qed.

(** In doubles [294 * (25 / 1225)] is [5.999999999999999], not 6, and
    [588 * (25 / 1225)] is [11.999999999999998], not 12: the click goes
    to row 1, column 0. *)
Example click_scaled_down_4x4 :
  @scaleX _ engine4x4 click_scaled_down = 5882252574524729 # 288230376151711744
  /\ @canvasLeft _ engine4x4 click_scaled_down
     = 6755399441055743 # 1125899906842624
  /\ @canvasTop _ engine4x4 click_scaled_down
     = 6755399441055743 # 562949953421312
  /\ (@click_row _ engine4x4 click_scaled_down,
      @click_col _ engine4x4 click_scaled_down) = (1, 0)%Z.
Proof. vm_compute. repeat split. Qed.

(** In doubles [1.2 * 5] is 6: the click goes to column 1. *)
Example click_scaled_up_4x4 :
  @canvasLeft _ engine4x4 click_scaled_up = 6%Q
  /\ @click_col _ engine4x4 click_scaled_up = 1%Z.
Proof. vm_compute. repeat split. Qed.

Example round64_samples :
  round64 (1 # 3) = 6004799503160661 # 18014398509481984
  /\ round64 (1 # 10) = 3602879701896397 # 36028797018963968
  /\ round64 (inject_Z (2 ^ 53 + 1)) = inject_Z (2 ^ 53)
  /\ round64 (inject_Z (2 ^ 53 + 3)) = inject_Z (2 ^ 53 + 4)
  /\ round64 (- (1 # 3)) = - 6004799503160661 # 18014398509481984.
Proof. vm_compute. repeat split. Qed.

Example drawGrid_4x4_lines :
  firstn 4 (@drawGrid_ops _ engine4x4)
  = [BeginPath; StrokeStyle "#CCCCCC"; MoveTo 1 0; LineTo 1 25]
  /\ List.length (@drawGrid_ops _ engine4x4) = 23.
Proof. split; reflexivity. Qed.

Example frames_after_two_animation_frames :
  Fps.frames (WithFps.fps
    (WithFps.run (engine := engine4x4) (js := xnum_number) clock16
       [AnimationFrame; AnimationFrame] page4x4))
  = [Fin (125 # 2); Fin (125 # 2); Fin (125 # 2)].
Proof. reflexivity. Qed.

Example pause_cancels_the_pending_frame :
  let p := WithFps.run (engine := engine4x4) (js := xnum_number) clock16
             [AnimationFrame; PlayPauseClick; AnimationFrame] page4x4 in
  animationId (WithFps.core p) = None
  /\ frame_callbacks (WithFps.core p) = []
  /\ loop_effects (log (WithFps.core p))
     = [Tick; RequestFrame 1; Tick; RequestFrame 2].
Proof. vm_compute. repeat split. Qed.

(** ** Bits and loops *)

Lemma land_mask_eqb (b k : Z) :
  (0 <= k)%Z ->
  Z.eqb (Z.land b (Z.shiftl 1 k)) (Z.shiftl 1 k) = Z.testbit b k.
Proof.
  intros Hk. rewrite Z.shiftl_1_l.
  assert (Hland : Z.land b (2 ^ k) = if Z.testbit b k then (2 ^ k)%Z else 0%Z).
  { apply Z.bits_inj'. intros n Hn.
    rewrite Z.land_spec, Z.pow2_bits_eqb by assumption.
    destruct (Z.eqb_spec k n) as [->|Hne].
    - rewrite andb_true_r. destruct (Z.testbit b n) eqn:E.
      + rewrite Z.pow2_bits_true; auto.
      + now rewrite Z.bits_0.
    - rewrite andb_false_r. destruct (Z.testbit b k).
      + rewrite Z.pow2_bits_false; auto.
      + now rewrite Z.bits_0. }
  rewrite Hland. destruct (Z.testbit b k).
  - apply Z.eqb_refl.
  - apply Z.eqb_neq. pose proof (Z.pow_pos_nonneg 2 k). lia.
Qed.

Lemma bitIsSet_packed_bit (n : nat) (arr : list byte) :
  bitIsSet n arr = packed_bit arr n.
Proof.
  unfold bitIsSet, packed_bit.
  rewrite land_mask_eqb by lia.
  destruct (nth_error arr (n / 8)); simpl; [reflexivity|].
  apply Z.bits_0.
Qed.

Lemma length_flat_map_blocks {A} (f : nat -> list A) (k : nat) :
  (forall i, List.length (f i) = k) ->
  forall l, List.length (flat_map f l) = List.length l * k.
Proof.
  intros Hf l. induction l as [|x l IH]; simpl; [reflexivity|].
  rewrite length_app, Hf, IH. reflexivity.
Qed.

(** The [j]-th element of the [i]-th block of a loop whose body always
    produces [k] elements. *)
Lemma nth_error_flat_map_blocks {A} (f : nat -> list A) (k : nat) :
  (forall i, List.length (f i) = k) ->
  forall n a i j, i < n -> j < k ->
    nth_error (flat_map f (seq a n)) (i * k + j) = nth_error (f (a + i)) j.
Proof.
  intros Hf n. induction n as [|n IH]; intros a i j Hi Hj; [lia|].
  simpl. destruct i as [|i].
  - simpl. rewrite nth_error_app1 by (rewrite Hf; exact Hj).
    now rewrite Nat.add_0_r.
  - rewrite nth_error_app2 by (rewrite Hf; simpl; lia).
    rewrite Hf. replace (S i * k + j - k) with (i * k + j) by (simpl; lia).
    rewrite IH by lia. f_equal. f_equal. lia.
Qed.

Lemma drawing_map_Draw (ops : list CanvasOp) : drawing (map Draw ops) = ops.
Proof. induction ops; simpl; congruence. Qed.

Lemma drawing_app (l1 l2 : list Effect) :
  drawing (l1 ++ l2) = drawing l1 ++ drawing l2.
Proof. apply flat_map_app. Qed.

Lemma engine_calls_map_Draw (ops : list CanvasOp) : engine_calls (map Draw ops) = [].
Proof. induction ops; simpl; auto. Qed.

Lemma loop_effects_map_Draw (ops : list CanvasOp) : loop_effects (map Draw ops) = [].
Proof. induction ops; simpl; auto. Qed.

Lemma loop_effects_app (l1 l2 : list Effect) :
  loop_effects (l1 ++ l2) = loop_effects l1 ++ loop_effects l2.
Proof. apply filter_app. Qed.

Lemma engine_calls_app (l1 l2 : list Effect) :
  engine_calls (l1 ++ l2) = engine_calls l1 ++ engine_calls l2.
Proof. apply filter_app. Qed.

Section ScriptFacts.
Context {U : Type} {engine : Engine U}.

Lemma nth_error_drawCells_ops (cells : list byte) (row col j : nat) :
  row < height -> col < width -> j < 2 ->
  nth_error (drawCells_ops cells) (1 + 2 * (row * width + col) + j)
  = nth_error (cell_ops cells row col) j.
Proof.
  intros Hrow Hcol Hj. unfold drawCells_ops.
  change ([BeginPath] ++ ?l) with (BeginPath :: l). simpl nth_error.
  set (inner := fun r => flat_map (fun c => cell_ops cells r c) (seq 0 width)).
  assert (Hinner : forall r, List.length (inner r) = width * 2).
  { intros r. unfold inner.
    rewrite (length_flat_map_blocks _ 2) by reflexivity.
    now rewrite length_seq. }
  rewrite nth_error_app1.
  2:{ rewrite (length_flat_map_blocks _ (width * 2)) by exact Hinner.
      rewrite length_seq. nia. }
  replace (row * width + col + (row * width + col + 0) + j)
    with (row * (width * 2) + (col * 2 + j)) by lia.
  rewrite (nth_error_flat_map_blocks inner (width * 2) Hinner) by lia.
  unfold inner.
  rewrite (nth_error_flat_map_blocks _ 2) by (reflexivity || lia).
  reflexivity.
Qed.

Lemma log_drawGrid (s : Core U) :
  log (drawGrid s) = log s ++ map Draw drawGrid_ops.
Proof. reflexivity. Qed.

Lemma log_drawCells (s : Core U) :
  log (drawCells s)
  = log s ++ [Cells] ++ map Draw (drawCells_ops (cells_view (universe s))).
Proof. unfold drawCells. simpl. now rewrite <- app_assoc. Qed.

End ScriptFacts.

(** ** Drawing the cells *)

Section DrawCells.
Context {U : Type} {engine : Engine U}.

(** What [drawCells] paints, in terms of the view it builds: for every
    row below [height] and column below [width], the rectangle of that
    cell (at [(col * 6 + 1, row * 6 + 1)], of size 5 x 5) right after
    setting the fill colour to [ALIVE_COLOR] when bit [row * width + col]
    of the view is set, and to [DEAD_COLOR] otherwise.  The view need not
    hold all the engine's bits. *)
Lemma drawCells_paints_view_bits (s : Core U) (row col : nat) :
  row < height -> col < width ->
  let cells := cells_view (universe s) in
  let idx := row * width + col in
  let color := if packed_bit cells idx then ALIVE_COLOR else DEAD_COLOR in
  let pos := List.length (log s) + 2 + 2 * idx in
  getIndex row col = idx
  /\ bitIsSet idx cells = packed_bit cells idx
  /\ nth_error (log (drawCells s)) pos = Some (Draw (FillStyle color))
  /\ nth_error (log (drawCells s)) (S pos)
     = Some (Draw (FillRect (Z.of_nat col * 6 + 1) (Z.of_nat row * 6 + 1) 5 5))
  /\ ALIVE_COLOR <> DEAD_COLOR.
Proof.
  intros Hrow Hcol cells idx color pos.
  assert (Hlog : forall j, j < 2 ->
            nth_error (log (drawCells s)) (pos + j)
            = option_map Draw (nth_error (cell_ops cells row col) j)).
  { intros j Hj. rewrite log_drawCells.
    rewrite nth_error_app2 by (unfold pos; lia).
    replace (pos + j - List.length (log s)) with (S (1 + 2 * idx + j))
      by (unfold pos; lia).
    change ([Cells] ++ ?l) with (Cells :: l). cbn [nth_error].
    rewrite nth_error_map. unfold idx.
    now rewrite nth_error_drawCells_ops. }
  split; [reflexivity|].
  split; [apply bitIsSet_packed_bit|].
  split; [|split].
  - rewrite <- (Nat.add_0_r pos), Hlog by lia. simpl.
    unfold getIndex. fold idx. rewrite bitIsSet_packed_bit. reflexivity.
  - replace (S pos) with (pos + 1) by lia. rewrite Hlog by lia. reflexivity.
  - discriminate.
Qed.

(** When the number of cells is a multiple of 8, the byte [bitIsSet]
    reads for a cell lies inside a view of [width * height / 8]
    bytes. *)
Lemma byte_index_inside_view (n : nat) :
  (width * height) mod 8 = 0 -> n < width * height ->
  n / 8 < width * height / 8.
Proof.
  intros Hmod Hn.
  apply Nat.Div0.div_exact in Hmod.
  apply Nat.Div0.div_lt_upper_bound. lia.
Qed.

End DrawCells.

(** C1. On a 3 x 3 universe whose cells start at address 4, the cell in
    row 2, column 2 is alive in the engine's bit-packed array (bit 8, in
    the second byte), yet [drawCells] sets the fill colour to
    [DEAD_COLOR] for its rectangle: the view has one byte only.  The cells
    of the first byte are painted as the engine has them: cell (0, 1)
    alive, cell (0, 0) dead. *)
Theorem drawCells_3x3_paints_live_cell_dead :
  let u := @Universe_new _ engine3x3_at4 in
  let packed := skipn (@universe_cells _ engine3x3_at4 u)
                      (@memory_buffer _ engine3x3_at4 u) in
  let painted := log (drawCells (engine := engine3x3_at4)
                        (boot_core (engine := engine3x3_at4) "" 0)) in
  2 < @height _ engine3x3_at4 /\ 2 < @width _ engine3x3_at4
  /\ @getIndex _ engine3x3_at4 2 2 = 8
  /\ packed_bit packed 8 = true
  /\ nth_error painted (2 + 2 * 8) = Some (Draw (FillStyle DEAD_COLOR))
  /\ nth_error painted (3 + 2 * 8) = Some (Draw (FillRect 13 13 5 5))
  /\ packed_bit packed 1 = true
  /\ nth_error painted (2 + 2 * 1) = Some (Draw (FillStyle ALIVE_COLOR))
  /\ nth_error painted (3 + 2 * 1) = Some (Draw (FillRect 7 1 5 5))
  /\ packed_bit packed 0 = false
  /\ nth_error painted (2 + 2 * 0) = Some (Draw (FillStyle DEAD_COLOR))
  /\ nth_error painted (3 + 2 * 0) = Some (Draw (FillRect 1 1 5 5)).
Proof. vm_compute. repeat split; lia. Qed.

(** C4. On a 3 x 3 universe the view [drawCells] builds has
    [3 * 3 / 8 = 1] byte, the last cell (row 2, column 2, index 8) is read
    in byte [8 / 8 = 1], which is outside the view: the read yields
    [undefined], and the cell is painted dead although its bit is set in
    the engine's memory. *)
Theorem drawCells_3x3_reads_outside_view :
  let u := @Universe_new _ engine3x3 in
  let cells := @cells_view _ engine3x3 u in
  let n := @getIndex _ engine3x3 2 2 in
  n = 8
  /\ n < @width _ engine3x3 * @height _ engine3x3
  /\ List.length cells = 1
  /\ n / 8 = 1
  /\ nth_error cells (n / 8) = None
  /\ packed_bit (skipn (@universe_cells _ engine3x3 u) (@memory_buffer _ engine3x3 u)) n = true
  /\ bitIsSet n cells = false
  /\ nth_error (@drawCells_ops _ engine3x3 cells) (1 + 2 * n) = Some (FillStyle DEAD_COLOR).
Proof. vm_compute. repeat split; lia. Qed.

(** ** Rounding to doubles *)

Section Rounding.
Local Open Scope Q_scope.

Lemma pow2_pos (e : Z) : 0 < 2 ^ e.
Proof. apply Qpower_0_lt. reflexivity. Qed.

Lemma pow2_plus (a b : Z) : 2 ^ (a + b) == 2 ^ a * 2 ^ b.
Proof. apply Qpower_plus. discriminate. Qed.

Lemma pow2_le (a b : Z) : (a <= b)%Z -> 2 ^ a <= 2 ^ b.
Proof. intros H. apply Qpower_le_compat_l; [exact H | discriminate]. Qed.

Lemma pow2_lt (a b : Z) : (a < b)%Z -> 2 ^ a < 2 ^ b.
Proof. intros H. apply Qpower_lt_compat_l; [exact H | reflexivity]. Qed.

Lemma pow2_Z (a : Z) : (0 <= a)%Z -> inject_Z (2 ^ a) == 2 ^ a.
Proof. intros H. now rewrite Zpower_Qpower. Qed.

Lemma Qlog2_bounds (q : Q) :
  0 < q ->
  let k := (Z.log2 (Qnum q) - Z.log2 (Zpos (Qden q)))%Z in
  2 ^ (k - 1) <= q /\ q < 2 ^ (k + 1).
Proof.
  intros Hq k. destruct q as [n d]. unfold k. simpl Qnum. simpl Qden.
  assert (Hn : (0 < n)%Z) by (unfold Qlt in Hq; simpl in Hq; lia).
  destruct (Z.log2_spec n Hn) as [Hn1 Hn2].
  destruct (Z.log2_spec (Zpos d) (Pos2Z.is_pos d)) as [Hd1 Hd2].
  pose proof (Z.log2_nonneg n) as Hln.
  pose proof (Z.log2_nonneg (Zpos d)) as Hld.
  set (ln := Z.log2 n) in *. set (ld := Z.log2 (Zpos d)) in *.
  assert (Hdpos : 0 < inject_Z (Zpos d)) by reflexivity.
  rewrite (Qmake_Qdiv n d).
  split.
  - apply Qle_shift_div_l; [exact Hdpos|].
    apply Qle_trans with (2 ^ (ln - ld - 1) * 2 ^ (ld + 1)).
    + apply Qmult_le_l; [apply pow2_pos|].
      rewrite <- pow2_Z by lia. rewrite <- Zle_Qle. lia.
    + rewrite <- pow2_plus.
      replace (ln - ld - 1 + (ld + 1))%Z with ln by lia.
      rewrite <- pow2_Z by lia. now rewrite <- Zle_Qle.
  - apply Qlt_shift_div_r; [exact Hdpos|].
    apply Qlt_le_trans with (2 ^ (ln - ld + 1) * 2 ^ ld).
    + rewrite <- pow2_plus.
      replace (ln - ld + 1 + ld)%Z with (Z.succ ln) by lia.
      rewrite <- pow2_Z by lia. now rewrite <- Zlt_Qlt.
    + apply Qmult_le_l; [apply pow2_pos|].
      rewrite <- pow2_Z by lia. now rewrite <- Zle_Qle.
Qed.

Lemma Qlog2_spec (q : Q) :
  0 < q -> 2 ^ Qlog2 q <= q /\ q < 2 ^ (Qlog2 q + 1).
Proof.
  intros Hq. destruct (Qlog2_bounds q Hq) as [Hlo Hhi].
  unfold Qlog2.
  set (k := (Z.log2 (Qnum q) - Z.log2 (Zpos (Qden q)))%Z) in *.
  destruct (Qle_bool (2 ^ k) q) eqn:E.
  - split; [now apply Qle_bool_iff | exact Hhi].
  - split; [exact Hlo|].
    replace (k - 1 + 1)%Z with k by lia.
    apply Qnot_le_lt. intros H. apply Qle_bool_iff in H. congruence.
Qed.

Lemma pow2_sandwich (q : Q) (e e' : Z) :
  2 ^ e <= q -> q < 2 ^ (e' + 1) -> (e <= e')%Z.
Proof.
  intros H1 H2.
  assert (H : 2 ^ e < 2 ^ (e' + 1)) by (eapply Qle_lt_trans; eassumption).
  apply Qpower_lt_compat_l_inv in H; [lia | reflexivity].
Qed.

Lemma Qlog2_unique (q : Q) (e : Z) :
  2 ^ e <= q -> q < 2 ^ (e + 1) -> Qlog2 q = e.
Proof.
  intros H1 H2.
  assert (Hq : 0 < q) by (eapply Qlt_le_trans; [apply (pow2_pos e) | exact H1]).
  destruct (Qlog2_spec q Hq) as [H3 H4].
  pose proof (pow2_sandwich q _ _ H1 H4).
  pose proof (pow2_sandwich q _ _ H3 H2). lia.
Qed.

Lemma Qlog2_comp (x y : Q) : 0 < x -> x == y -> Qlog2 x = Qlog2 y.
Proof.
  intros Hx Heq. symmetry. destruct (Qlog2_spec x Hx) as [H1 H2].
  apply Qlog2_unique; now rewrite <- Heq.
Qed.

Lemma Qlog2_le (x y : Q) : 0 < x -> x <= y -> (Qlog2 x <= Qlog2 y)%Z.
Proof.
  intros Hx Hxy.
  assert (Hy : 0 < y) by (eapply Qlt_le_trans; eassumption).
  destruct (Qlog2_spec x Hx) as [H1 _]. destruct (Qlog2_spec y Hy) as [_ H2].
  apply (pow2_sandwich x); [exact H1|].
  eapply Qle_lt_trans; eassumption.
Qed.

(** The nearest integer is monotone and leaves integers alone. *)

Lemma nearest_even_comp (x y : Q) : x == y -> nearest_even x = nearest_even y.
Proof.
  intros H. unfold nearest_even. rewrite (Qfloor_comp _ _ H).
  assert (Hc : (x - inject_Z (Qfloor y) ?= 1 # 2) = (y - inject_Z (Qfloor y) ?= 1 # 2))
    by (now rewrite H).
  now rewrite Hc.
Qed.

Lemma nearest_even_range (x : Q) :
  (Qfloor x <= nearest_even x <= Qfloor x + 1)%Z.
Proof.
  unfold nearest_even.
  destruct (x - inject_Z (Qfloor x) ?= 1 # 2); [destruct (Z.even _)| |]; lia.
Qed.

Lemma nearest_even_Z (z : Z) : nearest_even (inject_Z z) = z.
Proof.
  unfold nearest_even. rewrite Qfloor_Z.
  assert (H : (inject_Z z - inject_Z z ?= 1 # 2) = Lt).
  { apply Qlt_alt. setoid_replace (inject_Z z - inject_Z z) with 0 by ring. reflexivity. }
  now rewrite H.
Qed.

Lemma nearest_even_le (x y : Q) : x <= y -> (nearest_even x <= nearest_even y)%Z.
Proof.
  intros Hxy. pose proof (Qfloor_resp_le x y Hxy) as Hfl.
  pose proof (nearest_even_range x) as Hx. pose proof (nearest_even_range y) as Hy.
  destruct (Z.eq_dec (Qfloor x) (Qfloor y)) as [Heq|Hne]; [|lia].
  unfold nearest_even in *. rewrite <- Heq in *.
  set (lo := Qfloor x) in *.
  assert (Hr : x - inject_Z lo <= y - inject_Z lo).
  { apply Qplus_le_l with (z := inject_Z lo). ring_simplify. exact Hxy. }
  destruct (Qcompare_spec (x - inject_Z lo) (1 # 2)) as [Ex|Ex|Ex];
    destruct (Qcompare_spec (y - inject_Z lo) (1 # 2)) as [Ey|Ey|Ey];
    try (destruct (Z.even lo)); try lia.
  all: exfalso; apply (Qlt_irrefl (1 # 2)).
  all: first
    [ rewrite Ex in Hr; eapply Qle_lt_trans; eassumption
    | rewrite Ey in Hr; eapply Qlt_le_trans; eassumption
    | eapply Qlt_le_trans; [exact Ex|];
      eapply Qle_trans; [exact Hr|]; apply Qlt_le_weak; exact Ey ].
Qed.

(** Rounding to the multiples of one power of two. *)

Lemma round_to_comp (f : Z) (x y : Q) : x == y -> round_to f x == round_to f y.
Proof.
  intros H. unfold round_to.
  assert (Hq : x / 2 ^ f == y / 2 ^ f) by (now rewrite H).
  now rewrite (nearest_even_comp _ _ Hq).
Qed.

Lemma round_to_le (f : Z) (x y : Q) : x <= y -> round_to f x <= round_to f y.
Proof.
  intros H. unfold round_to.
  apply Qmult_le_compat_r; [|apply Qlt_le_weak, pow2_pos].
  rewrite <- Zle_Qle. apply nearest_even_le.
  apply Qmult_le_compat_r; [exact H|].
  apply Qlt_le_weak, Qinv_lt_0_compat, pow2_pos.
Qed.

Lemma round_to_multiple (f : Z) (q : Q) (k : Z) :
  q == inject_Z k * 2 ^ f -> round_to f q == q.
Proof.
  intros H. unfold round_to.
  assert (Hq : q / 2 ^ f == inject_Z k).
  { rewrite H. field. intros E. pose proof (pow2_pos f) as Hp.
    rewrite E in Hp. discriminate Hp. }
  rewrite (nearest_even_comp _ _ Hq), nearest_even_Z. now rewrite H.
Qed.

Lemma round_to_pow2 (f e : Z) : (f <= e)%Z -> round_to f (2 ^ e) == 2 ^ e.
Proof.
  intros H. apply (round_to_multiple f _ (2 ^ (e - f))).
  rewrite pow2_Z by lia. rewrite <- pow2_plus.
  now replace (e - f + f)%Z with e by lia.
Qed.

Lemma round_to_nonneg (f : Z) (q : Q) : 0 <= q -> 0 <= round_to f q.
Proof.
  intros H.
  assert (H0 : round_to f 0 == 0).
  { apply (round_to_multiple f 0 0). ring. }
  rewrite <- H0. now apply round_to_le.
Qed.

(** The last place grows with the number. *)

Lemma quantum_comp (x y : Q) : 0 < x -> x == y -> quantum x = quantum y.
Proof. intros Hx H. unfold quantum. now rewrite (Qlog2_comp x y Hx H). Qed.

Lemma quantum_le (x y : Q) : 0 < x -> x <= y -> (quantum x <= quantum y)%Z.
Proof. intros Hx H. unfold quantum. pose proof (Qlog2_le x y Hx H). lia. Qed.

(** Rounding of positive numbers is monotone: within one grid by
    [round_to_le]; across grids the power of two between the two numbers
    is on both grids. *)

Lemma round_pos_le (x y : Q) :
  0 < x -> x <= y -> round_to (quantum x) x <= round_to (quantum y) y.
Proof.
  intros Hx Hxy.
  assert (Hy : 0 < y) by (eapply Qlt_le_trans; eassumption).
  pose proof (quantum_le x y Hx Hxy) as Hq.
  destruct (Z.eq_dec (quantum x) (quantum y)) as [Heq|Hne].
  - rewrite Heq. now apply round_to_le.
  - assert (Hlt : (quantum x < quantum y)%Z) by lia.
    destruct (Qlog2_spec x Hx) as [_ Hx2]. destruct (Qlog2_spec y Hy) as [Hy1 _].
    unfold quantum in Hlt.
    assert (He : (Qlog2 x + 1 <= Qlog2 y)%Z) by lia.
    assert (Hfy : Z.max (Qlog2 y - 52) (-1074) = (Qlog2 y - 52)%Z) by lia.
    apply Qle_trans with (2 ^ Qlog2 y).
    + rewrite <- (round_to_pow2 (quantum x) (Qlog2 y)) by (unfold quantum; lia).
      apply round_to_le. apply Qlt_le_weak.
      eapply Qlt_le_trans; [exact Hx2|]. now apply pow2_le.
    + rewrite <- (round_to_pow2 (quantum y) (Qlog2 y)) at 1 by (unfold quantum; lia).
      now apply round_to_le.
Qed.

(** [round64]: its three cases, and that it respects equality of
    rationals. *)

Lemma round64_pos (q : Q) : 0 < q -> round64 q == round_to (quantum q) q.
Proof.
  intros H. unfold round64.
  assert (E : (q ?= 0) = Gt) by (now apply Qgt_alt).
  rewrite E. apply Qred_correct.
Qed.

Lemma round64_neg (q : Q) : q < 0 -> round64 q == - round_to (quantum (- q)) (- q).
Proof.
  intros H. unfold round64.
  assert (E : (q ?= 0) = Lt) by (now apply Qlt_alt).
  rewrite E. apply Qred_correct.
Qed.

Lemma round64_zero (q : Q) : q == 0 -> round64 q == 0.
Proof.
  intros H. unfold round64.
  assert (E : (q ?= 0) = Eq) by (now apply Qeq_alt).
  now rewrite E.
Qed.

Lemma Qopp_pos (q : Q) : q < 0 -> 0 < - q.
Proof. intros H. apply Qopp_lt_compat in H. exact H. Qed.

#[global] Instance round64_comp : Proper (Qeq ==> Qeq) round64.
Proof.
  intros x y H.
  destruct (Q_dec x 0) as [[Hx|Hx]|Hx].
  - assert (Hy : y < 0) by (now rewrite <- H).
    rewrite (round64_neg x Hx), (round64_neg y Hy).
    assert (Hn : - x == - y) by (now rewrite H).
    rewrite (quantum_comp (- x) (- y) (Qopp_pos x Hx) Hn).
    now rewrite (round_to_comp _ _ _ Hn).
  - assert (Hy : 0 < y) by (now rewrite <- H).
    rewrite (round64_pos x Hx), (round64_pos y Hy).
    rewrite (quantum_comp x y Hx H). now apply round_to_comp.
  - assert (Hy : y == 0) by (now rewrite <- H).
    now rewrite (round64_zero x Hx), (round64_zero y Hy).
Qed.

Lemma round64_nonneg (q : Q) : 0 <= q -> 0 <= round64 q.
Proof.
  intros H. apply Qle_lteq in H. destruct H as [H|H].
  - rewrite (round64_pos q H). apply round_to_nonneg. now apply Qlt_le_weak.
  - rewrite (round64_zero q (Qeq_sym _ _ H)). apply Qle_refl.
Qed.

Lemma round64_nonpos (q : Q) : q <= 0 -> round64 q <= 0.
Proof.
  intros H. apply Qle_lteq in H. destruct H as [H|H].
  - rewrite (round64_neg q H).
    setoid_replace 0 with (- 0) by ring. apply Qopp_le_compat.
    apply round_to_nonneg. apply Qlt_le_weak. now apply Qopp_pos.
  - rewrite (round64_zero q H). apply Qle_refl.
Qed.

(** Rounding is monotone. *)
Lemma round64_le (x y : Q) : x <= y -> round64 x <= round64 y.
Proof.
  intros Hxy.
  destruct (Qlt_le_dec 0 x) as [Hx|Hx].
  - assert (Hy : 0 < y) by exact (Qlt_le_trans _ _ _ Hx Hxy).
    rewrite (round64_pos x Hx), (round64_pos y Hy). now apply round_pos_le.
  - destruct (Qlt_le_dec y 0) as [Hy|Hy].
    + assert (Hx' : x < 0) by exact (Qle_lt_trans _ _ _ Hxy Hy).
      rewrite (round64_neg x Hx'), (round64_neg y Hy).
      apply Qopp_le_compat. apply round_pos_le; [now apply Qopp_pos|].
      now apply Qopp_le_compat.
    + apply Qle_trans with 0; [now apply round64_nonpos | now apply round64_nonneg].
Qed.

Lemma round_pos_Z (z : Z) :
  (0 < z <= 2 ^ 53)%Z ->
  round_to (quantum (inject_Z z)) (inject_Z z) == inject_Z z.
Proof.
  intros [Hz1 Hz2].
  destruct (Z.log2_spec z Hz1) as [Hl1 Hl2].
  pose proof (Z.log2_nonneg z) as Hl0.
  assert (He : Qlog2 (inject_Z z) = Z.log2 z).
  { apply Qlog2_unique.
    - rewrite <- pow2_Z by lia. now rewrite <- Zle_Qle.
    - rewrite <- pow2_Z by lia. rewrite <- Zlt_Qlt. lia. }
  unfold quantum. rewrite He.
  assert (Hl53 : (Z.log2 z <= 53)%Z).
  { destruct (Z_le_gt_dec (Z.log2 z) 53) as [H|H]; [exact H|]. exfalso.
    assert (H54 : (2 ^ 54 <= 2 ^ Z.log2 z)%Z) by (apply Z.pow_le_mono_r; lia).
    lia. }
  replace (Z.max (Z.log2 z - 52) (-1074)) with (Z.log2 z - 52)%Z by lia.
  destruct (Z_le_gt_dec (Z.log2 z) 52) as [Hs|Hs].
  - apply (round_to_multiple _ _ (z * 2 ^ (52 - Z.log2 z))).
    rewrite inject_Z_mult, pow2_Z by lia.
    rewrite <- Qmult_assoc, <- pow2_plus.
    replace (52 - Z.log2 z + (Z.log2 z - 52))%Z with 0%Z by lia.
    simpl. ring.
  - assert (Hl : Z.log2 z = 53%Z) by lia.
    assert (Hz : z = (2 ^ 53)%Z) by (rewrite Hl in Hl1; lia).
    rewrite Hl, Hz. apply (round_to_multiple _ _ (2 ^ 52)). reflexivity.
Qed.

(** Integers of at most 53 bits are doubles: rounding leaves them alone. *)
Lemma round64_Z (q : Q) (z : Z) :
  q == inject_Z z -> (Z.abs z <= 2 ^ 53)%Z -> round64 q == inject_Z z.
Proof.
  intros Hq Hz. rewrite Hq.
  destruct (Z.lt_trichotomy z 0) as [Hn|[->|Hp]].
  - assert (Hlt : inject_Z z < 0) by (now rewrite (Zlt_Qlt z 0) in Hn).
    rewrite (round64_neg _ Hlt).
    assert (Ho : - inject_Z z == inject_Z (- z)) by (now rewrite inject_Z_opp).
    rewrite (quantum_comp _ _ (Qopp_pos _ Hlt) Ho), (round_to_comp _ _ _ Ho).
    rewrite round_pos_Z by lia. rewrite inject_Z_opp. ring.
  - reflexivity.
  - assert (Hgt : 0 < inject_Z z) by (now rewrite (Zlt_Qlt 0 z) in Hp).
    rewrite (round64_pos _ Hgt). apply round_pos_Z. lia.
Qed.

(** The nearest integer is within one half. *)
Lemma nearest_even_upper (m : Q) : inject_Z (nearest_even m) <= m + (1 # 2).
Proof.
  unfold nearest_even.
  pose proof (Qfloor_le m) as Hfl.
  destruct (Qcompare_spec (m - inject_Z (Qfloor m)) (1 # 2)) as [E|E|E].
  - destruct (Z.even (Qfloor m)).
    + apply Qle_trans with m; [exact Hfl|].
      rewrite <- (Qplus_0_r m) at 1. apply Qplus_le_r. discriminate.
    + rewrite inject_Z_plus.
      setoid_replace (m + (1 # 2)) with (inject_Z (Qfloor m) + (m - inject_Z (Qfloor m)) + (1 # 2)) by ring.
      rewrite E. setoid_replace (inject_Z (Qfloor m) + (1 # 2) + (1 # 2)) with (inject_Z (Qfloor m) + inject_Z 1) by ring.
      apply Qle_refl.
  - apply Qle_trans with m; [exact Hfl|].
    rewrite <- (Qplus_0_r m) at 1. apply Qplus_le_r. discriminate.
  - rewrite inject_Z_plus.
    setoid_replace (m + (1 # 2)) with (inject_Z (Qfloor m) + ((m - inject_Z (Qfloor m)) + (1 # 2))) by ring.
    apply Qplus_le_r.
    setoid_replace (inject_Z 1) with ((1 # 2) + (1 # 2)) by reflexivity.
    apply Qplus_le_l. now apply Qlt_le_weak.
Qed.

Lemma round_to_upper (f : Z) (q : Q) : round_to f q <= q + 2 ^ f * (1 # 2).
Proof.
  unfold round_to.
  assert (Hp : ~ 2 ^ f == 0).
  { intros E. pose proof (pow2_pos f) as H. rewrite E in H. discriminate H. }
  setoid_replace (q + 2 ^ f * (1 # 2)) with ((q / 2 ^ f + (1 # 2)) * 2 ^ f)
    by (field; exact Hp).
  apply Qmult_le_compat_r; [apply nearest_even_upper|].
  apply Qlt_le_weak, pow2_pos.
Qed.

(** A double that is at least 1 is a multiple of its own last place. *)
Lemma round64_on_grid (t : Q) :
  1 <= round64 t ->
  exists k : Z, round64 t == inject_Z k * 2 ^ quantum (round64 t).
Proof.
  intros Hx.
  assert (Ht : (1 # 2) <= t).
  { destruct (Qlt_le_dec t (1 # 2)) as [H|H]; [|exact H]. exfalso.
    apply Qlt_le_weak in H. apply round64_le in H.
    assert (Hh : round64 (1 # 2) == 1 # 2) by reflexivity.
    rewrite Hh in H.
    apply (Qlt_irrefl 1). eapply Qle_lt_trans; [exact Hx|].
    eapply Qle_lt_trans; [exact H|]. reflexivity. }
  assert (Htpos : 0 < t) by (eapply Qlt_le_trans; [|exact Ht]; reflexivity).
  destruct (Qlog2_spec t Htpos) as [He1 He2].
  set (e := Qlog2 t) in *.
  assert (He : (-1 <= e)%Z).
  { apply (pow2_sandwich t); [|exact He2]. exact Ht. }
  assert (Hf : quantum t = (e - 52)%Z) by (unfold quantum; fold e; lia).
  assert (Hr : round64 t == round_to (e - 52) t)
    by (rewrite (round64_pos t Htpos), Hf; reflexivity).
  assert (Hlo : 2 ^ e <= round64 t).
  { rewrite Hr. rewrite <- (round_to_pow2 (e - 52) e) at 1 by lia.
    now apply round_to_le. }
  assert (Hhi : round64 t <= 2 ^ (e + 1)).
  { rewrite Hr. rewrite <- (round_to_pow2 (e - 52) (e + 1)) by lia.
    apply round_to_le. now apply Qlt_le_weak. }
  apply Qle_lteq in Hhi. destruct Hhi as [Hhi|Hhi].
  - assert (Hq : quantum (round64 t) = (e - 52)%Z).
    { unfold quantum. rewrite (Qlog2_unique (round64 t) e Hlo Hhi). lia. }
    rewrite Hq. exists (nearest_even (t / 2 ^ (e - 52))). exact Hr.
  - assert (Hq : quantum (round64 t) = (e + 1 - 52)%Z).
    { unfold quantum. rewrite (Qlog2_unique (round64 t) (e + 1)).
      - lia.
      - rewrite Hhi. apply Qle_refl.
      - rewrite Hhi. apply pow2_lt. lia. }
    rewrite Hq. exists (2 ^ 52)%Z. rewrite Hhi.
    rewrite pow2_Z by lia. rewrite <- pow2_plus. now replace (52 + (e + 1 - 52))%Z with (e + 1)%Z by lia.
Qed.

(** A double that is at least 1 and below [6 * N], divided by 6, is
    rounded to less than [N]: were it rounded up to [N], the double would
    be within three last places of the quotient below [6 * N], but its own
    last place is four times as large. *)
Lemma round64_div6_lt (t : Q) (N : Z) :
  (1 <= N <= 2 ^ 32)%Z ->
  1 <= round64 t -> round64 t < inject_Z (6 * N) ->
  round64 (round64 t / 6) < inject_Z N.
Proof.
  intros HN Hx1 Hx2.
  destruct (round64_on_grid t Hx1) as [k Hk].
  set (x := round64 t) in *.
  assert (Hxpos : 0 < x) by (eapply Qlt_le_trans; [|exact Hx1]; reflexivity).
  destruct (Qlog2_spec x Hxpos) as [Hex1 Hex2].
  set (ex := Qlog2 x) in *.
  assert (Hex : (0 <= ex <= 34)%Z).
  { split.
    - apply (pow2_sandwich x); [exact Hx1 | exact Hex2].
    - apply (pow2_sandwich x); [exact Hex1|].
      eapply Qlt_le_trans; [exact Hx2|].
      rewrite <- (pow2_Z (34 + 1)) by lia. rewrite <- Zle_Qle.
      change (2 ^ (34 + 1))%Z with (8 * 2 ^ 32)%Z. lia. }
  assert (Hqx : quantum x = (ex - 52)%Z) by (unfold quantum; fold ex; lia).
  rewrite Hqx in Hk.
  set (y := x / 6).
  assert (Hy6 : x == y * 6) by (unfold y; field).
  assert (Hypos : 0 < y).
  { unfold y. apply Qlt_shift_div_l; [reflexivity|]. now rewrite Qmult_0_l. }
  destruct (Qlog2_spec y Hypos) as [Hey1 Hey2].
  set (ey := Qlog2 y) in *.
  assert (Hey : (-3 <= ey)%Z).
  { apply (pow2_sandwich y); [|exact Hey2].
    unfold y. apply Qle_shift_div_l; [reflexivity|].
    eapply Qle_trans; [|exact Hx1]. discriminate. }
  assert (Hqy : quantum y = (ey - 52)%Z) by (unfold quantum; fold ey; lia).
  assert (Hexy : (ey + 2 <= ex)%Z).
  { apply (pow2_sandwich x); [|exact Hex2].
    rewrite Hy6. rewrite pow2_plus.
    apply Qle_trans with (y * 4).
    - rewrite (Qmult_comm y). setoid_replace (2 ^ 2) with 4 by reflexivity.
      rewrite (Qmult_comm (2 ^ ey)).
      apply Qmult_le_l; [reflexivity | exact Hey1].
    - apply Qmult_le_l; [exact Hypos | discriminate]. }
  destruct (Qlt_le_dec (round64 y) (inject_Z N)) as [H|H]; [exact H|exfalso].
  rewrite (round64_pos y Hypos), Hqy in H.
  pose proof (round_to_upper (ey - 52) y) as Hup.
  assert (H1 : inject_Z (6 * N) <= x + 3 * 2 ^ (ey - 52)).
  { rewrite inject_Z_mult.
    setoid_replace (x + 3 * 2 ^ (ey - 52))
      with (inject_Z 6 * (y + 2 ^ (ey - 52) * (1 # 2)))
      by (rewrite Hy6; change (inject_Z 6) with 6; ring).
    apply Qmult_le_l; [reflexivity|].
    eapply Qle_trans; eassumption. }
  set (c := (6 * N * 2 ^ (52 - ex) - k)%Z).
  assert (Hgap : inject_Z (6 * N) - x == inject_Z c * 2 ^ (ex - 52)).
  { unfold c. rewrite Hk.
    replace (6 * N * 2 ^ (52 - ex) - k)%Z with (6 * N * 2 ^ (52 - ex) + - k)%Z by lia.
    rewrite inject_Z_plus, inject_Z_opp, (inject_Z_mult (6 * N)).
    rewrite pow2_Z by lia.
    setoid_replace ((inject_Z (6 * N) * 2 ^ (52 - ex) + - inject_Z k) * 2 ^ (ex - 52))
      with (inject_Z (6 * N) * (2 ^ (52 - ex) * 2 ^ (ex - 52)) - inject_Z k * 2 ^ (ex - 52))
      by ring.
    rewrite <- pow2_plus. replace (52 - ex + (ex - 52))%Z with 0%Z by lia.
    change (2 ^ 0) with 1. ring. }
  assert (Hc : (1 <= c)%Z).
  { assert (Hcpos : 0 < inject_Z c * 2 ^ (ex - 52)).
    { rewrite <- Hgap. rewrite <- (Qplus_opp_r x).
      apply Qplus_lt_l. exact Hx2. }
    assert (Hc0 : 0 < inject_Z c).
    { apply (Qmult_lt_r _ _ (2 ^ (ex - 52))); [apply pow2_pos|].
      now rewrite Qmult_0_l. }
    change 0 with (inject_Z 0) in Hc0. rewrite <- Zlt_Qlt in Hc0. lia. }
  assert (H2 : 2 ^ (ex - 52) <= inject_Z (6 * N) - x).
  { rewrite Hgap. rewrite <- (Qmult_1_l (2 ^ (ex - 52))) at 1.
    apply Qmult_le_compat_r; [|apply Qlt_le_weak, pow2_pos].
    change 1 with (inject_Z 1). rewrite <- Zle_Qle. exact Hc. }
  assert (H3 : 2 ^ (ex - 52) < 2 ^ (ey - 52 + 2)).
  { eapply Qle_lt_trans; [exact H2|].
    apply Qle_lt_trans with (3 * 2 ^ (ey - 52)).
    - apply Qplus_le_l with (z := x). ring_simplify. exact H1.
    - rewrite pow2_plus. rewrite (Qmult_comm (2 ^ (ey - 52))).
      apply Qmult_lt_r; [apply pow2_pos | reflexivity]. }
  apply Qpower_lt_compat_l_inv in H3; [lia | reflexivity].
Qed.

End Rounding.

(** ** Clicks on the canvas *)

Section CanvasClick.
Context {U : Type} {engine : Engine U} {num : Type}.

Lemma log_on_canvas_click (c : Click) (s : Core U) :
  log (on_canvas_click c s)
  = log s ++ [ToggleCell (click_row c) (click_col c)]
      ++ map Draw drawGrid_ops
      ++ [Cells]
      ++ map Draw (drawCells_ops
           (cells_view (universe_toggle_cell (universe s) (click_row c) (click_col c)))).
Proof.
  unfold on_canvas_click. rewrite log_drawCells, log_drawGrid. simpl.
  now rewrite <- !app_assoc.
Qed.

Lemma core_on_canvas_click (c : Click) (p : @WithFps.Page U num) :
  WithFps.core (WithFps.on_canvas_click c p) = on_canvas_click c (WithFps.core p).
Proof. reflexivity. Qed.

(** A double that is at least [6 * h], divided by 6 as the listener does,
    is at least [h]: the quotient is rounded, but [h] is a double. *)
Lemma Qfloor_div6_ge (q : Q) (h : Z) :
  (Z.abs h <= 2 ^ 53)%Z ->
  (inject_Z (6 * h) <= q)%Q ->
  (h <= Qfloor (round64 (q / inject_Z (CELL_SIZE + 1))))%Z.
Proof.
  intros Hh Hq. rewrite <- (Qfloor_Z h). apply Qfloor_resp_le.
  rewrite <- (round64_Z (inject_Z h) h (Qeq_refl _) Hh).
  apply round64_le.
  apply Qle_shift_div_l; [reflexivity|].
  rewrite <- inject_Z_mult. change (CELL_SIZE + 1)%Z with 6%Z.
  now rewrite Z.mul_comm.
Qed.

(** The grid's dimensions, and so the canvas's, are far below [2 ^ 53]. *)
Lemma height_u32 : (Z.of_nat height < 2 ^ 32)%Z.
Proof. apply universe_height_u32. Qed.

Lemma width_u32 : (Z.of_nat width < 2 ^ 32)%Z.
Proof. apply universe_width_u32. Qed.

(** C5. A click on the canvas calls [universe.toggle_cell] once, with
    [row = min(floor(canvasTop / 6), height - 1)] and
    [col = min(floor(canvasLeft / 6), width - 1)], where [canvasTop] and
    [canvasLeft] are the click's coordinates relative to the canvas and
    corrected by the canvas's scale, every operation being the one on
    doubles, and then calls [drawGrid] and [drawCells], once each and in
    this order, on the toggled universe. *)
Theorem canvas_click_toggles_then_redraws (c : Click) (p : @WithFps.Page U num) :
  laid_out c ->
  let top := round64 (round64 (clientY c - rect_top c)
                      * round64 (inject_Z canvas_height / rect_height c)) in
  let left := round64 (round64 (clientX c - rect_left c)
                       * round64 (inject_Z canvas_width / rect_width c)) in
  let row := Z.min (Qfloor (round64 (top / 6))) (Z.of_nat height - 1) in
  let col := Z.min (Qfloor (round64 (left / 6))) (Z.of_nat width - 1) in
  let u' := universe_toggle_cell (universe (WithFps.core p)) row col in
  let p' := WithFps.on_canvas_click c p in
  log (WithFps.core p')
  = log (WithFps.core p)
      ++ [ToggleCell row col]
      ++ map Draw drawGrid_ops
      ++ [Cells] ++ map Draw (drawCells_ops (cells_view u'))
  /\ universe (WithFps.core p') = u'
  /\ engine_calls (skipn (List.length (log (WithFps.core p))) (log (WithFps.core p')))
     = [ToggleCell row col; Cells]
  /\ drawing (skipn (List.length (log (WithFps.core p))) (log (WithFps.core p')))
     = drawGrid_ops ++ drawCells_ops (cells_view u').
Proof.
  intros _ top left row col u' p'.
  assert (Hlog : log (WithFps.core p')
                 = log (WithFps.core p)
                     ++ [ToggleCell row col]
                     ++ map Draw drawGrid_ops
                     ++ [Cells] ++ map Draw (drawCells_ops (cells_view u')))
    by (unfold p'; rewrite core_on_canvas_click; apply log_on_canvas_click).
  split; [exact Hlog|]. split; [reflexivity|].
  rewrite Hlog, skipn_app, Nat.sub_diag, skipn_all.
  cbn [skipn]. rewrite app_nil_l.
  split.
  - now rewrite !engine_calls_app, !engine_calls_map_Draw.
  - now rewrite !drawing_app, !drawing_map_Draw.
Qed.

(** C9. The row and the column a click passes to [universe.toggle_cell]
    are at most [height - 1] and [width - 1]; a click at or beyond the
    bottom (right) border is sent to the last row (column).  Nothing
    bounds them from below: a click above and left of the canvas's
    rectangle passes a negative row and column. *)
Theorem canvas_click_clamped_from_above (c : Click) (p : @WithFps.Page U num) :
  laid_out c ->
  nth_error (log (WithFps.core (WithFps.on_canvas_click c p)))
            (List.length (log (WithFps.core p)))
  = Some (ToggleCell (click_row c) (click_col c))
  /\ (click_row c <= Z.of_nat height - 1)%Z
  /\ (click_col c <= Z.of_nat width - 1)%Z
  /\ ((inject_Z (6 * Z.of_nat height) <= canvasTop c)%Q ->
      click_row c = (Z.of_nat height - 1)%Z)
  /\ ((inject_Z (6 * Z.of_nat width) <= canvasLeft c)%Q ->
      click_col c = (Z.of_nat width - 1)%Z)
  /\ (exists c', laid_out c' /\ (click_row c' < 0)%Z /\ (click_col c' < 0)%Z).
Proof.
  intros _.
  split.
  { rewrite core_on_canvas_click, log_on_canvas_click.
    rewrite nth_error_app2 by lia. now rewrite Nat.sub_diag. }
  split; [apply Z.le_min_r|]. split; [apply Z.le_min_r|].
  split; [|split].
  - intros H. apply Qfloor_div6_ge in H; [|pose proof height_u32; lia].
    unfold click_row. lia.
  - intros H. apply Qfloor_div6_ge in H; [|pose proof width_u32; lia].
    unfold click_col. lia.
  - exists (mkClick (inject_Z (-6)) (inject_Z (-6)) 0 0
                    (inject_Z canvas_width) (inject_Z canvas_height)).
    assert (Hcw : (0 < canvas_width)%Z) by (unfold canvas_width, CELL_SIZE; lia).
    assert (Hch : (0 < canvas_height)%Z) by (unfold canvas_height, CELL_SIZE; lia).
    split.
    { split; cbn [rect_width rect_height]; rewrite <- (Zlt_Qlt 0); assumption. }
    assert (Hneg : forall z : Z, (0 < z)%Z ->
              Qfloor (round64
                        (round64 (round64 (inject_Z (-6) - 0)
                                  * round64 (inject_Z z / inject_Z z))
                         / inject_Z (CELL_SIZE + 1)))
              = (-1)%Z).
    { intros z Hz.
      assert (Hscale : (round64 (inject_Z z / inject_Z z) == inject_Z 1)%Q).
      { apply round64_Z; [|lia]. field.
        change 0%Q with (inject_Z 0). rewrite inject_Z_injective. lia. }
      assert (Hoff : (round64 (inject_Z (-6) - 0) == inject_Z (-6))%Q)
        by (apply round64_Z; [reflexivity | lia]).
      assert (Hprod : (round64 (round64 (inject_Z (-6) - 0)
                                * round64 (inject_Z z / inject_Z z))
                       == inject_Z (-6))%Q).
      { rewrite Hscale, Hoff. apply round64_Z; [reflexivity | lia]. }
      assert (Hquot : (round64
                         (round64 (round64 (inject_Z (-6) - 0)
                                   * round64 (inject_Z z / inject_Z z))
                          / inject_Z (CELL_SIZE + 1))
                       == inject_Z (-1))%Q).
      { rewrite Hprod. apply round64_Z; [reflexivity | lia]. }
      rewrite Hquot. apply Qfloor_Z. }
    split.
    + unfold click_row, canvasTop, scaleY. cbn [clientY rect_top rect_height].
      rewrite (Hneg canvas_height Hch). lia.
    + unfold click_col, canvasLeft, scaleX. cbn [clientX rect_left rect_width].
      rewrite (Hneg canvas_width Hcw). lia.
Qed.

End CanvasClick.

(** ** The render loop and the play-pause button, on the shared state *)

Section LoopFacts.
Context {U : Type} {engine : Engine U}.

Lemma log_renderLoop (s : Core U) :
  log (Plain.renderLoop s)
  = log s ++ [Tick]
      ++ map Draw drawGrid_ops
      ++ [Cells] ++ map Draw (drawCells_ops (cells_view (universe_tick (universe s))))
      ++ [RequestFrame (S (frame_handle s))].
Proof.
  unfold Plain.renderLoop. simpl. now rewrite <- !app_assoc.
Qed.

Lemma renderLoop_fields (s : Core U) :
  animationId (Plain.renderLoop s) = Some (S (frame_handle s))
  /\ frame_callbacks (Plain.renderLoop s) = frame_callbacks s ++ [S (frame_handle s)]
  /\ frame_handle (Plain.renderLoop s) = S (frame_handle s)
  /\ universe (Plain.renderLoop s) = universe_tick (universe s)
  /\ playPauseText (Plain.renderLoop s) = playPauseText s.
Proof. repeat split. Qed.

Lemma pending_matches_renderLoop (s : Core U) :
  frame_callbacks s = [] -> pending_matches (Plain.renderLoop s).
Proof.
  intros H. unfold pending_matches.
  destruct (renderLoop_fields s) as (-> & -> & _). now rewrite H.
Qed.

Lemma pending_matches_pause (s : Core U) :
  pending_matches s -> pending_matches (pause s) /\ frame_callbacks (pause s) = [].
Proof.
  unfold pending_matches. intros H.
  assert (Hc : frame_callbacks (pause s) = []).
  { unfold pause. simpl. rewrite H.
    destruct (animationId s); simpl; [|reflexivity].
    now rewrite Nat.eqb_refl. }
  split; [|exact Hc]. now rewrite Hc.
Qed.

Lemma pending_matches_frame (s : Core U) :
  pending_matches s -> pending_matches (Plain.on_animation_frame s).
Proof.
  intros H. unfold Plain.on_animation_frame.
  unfold pending_matches in H. rewrite H.
  destruct (animationId s) as [id|] eqn:E; cbn [fold_left].
  - apply pending_matches_renderLoop. reflexivity.
  - reflexivity.
Qed.

Lemma pending_matches_step (s : Core U) (e : Event) :
  pending_matches s -> pending_matches (Plain.step s e).
Proof.
  intros H. destruct e as [| |c]; simpl.
  - now apply pending_matches_frame.
  - unfold Plain.on_play_pause_click, isPaused.
    destruct (animationId s) eqn:E.
    + now apply pending_matches_pause.
    + apply pending_matches_renderLoop. simpl.
      unfold pending_matches in H. now rewrite E in H.
  - exact H.
Qed.

Lemma pending_matches_run (evs : list Event) (s : Core U) :
  pending_matches s -> pending_matches (Plain.run evs s).
Proof.
  revert s. induction evs as [|e evs IH]; intros s H; simpl; [exact H|].
  apply IH. now apply pending_matches_step.
Qed.

Lemma pending_matches_script (button_text : string) (handle : nat) :
  pending_matches (Plain.script (boot_core button_text handle)).
Proof. apply pending_matches_renderLoop. reflexivity. Qed.

Lemma loop_effects_on_canvas_click (c : Click) (s : Core U) :
  loop_effects (log (on_canvas_click c s)) = loop_effects (log s).
Proof.
  rewrite log_on_canvas_click.
  rewrite !loop_effects_app, !loop_effects_map_Draw. simpl.
  now rewrite app_nil_r.
Qed.

End LoopFacts.

(** ** [index.js] over the shared state *)

Section Simulation.
Context {U : Type} {engine : Engine U} {num : Type} {js : JsNumber num}.
Variable clock : nat -> num.
Local Abbreviation Page := (@WithFps.Page U num).

Lemma core_fps_render (p : Page) :
  WithFps.core (WithFps.fps_render clock p) = WithFps.core p.
Proof. reflexivity. Qed.

Lemma core_renderLoop (p : Page) :
  WithFps.core (WithFps.renderLoop clock p) = Plain.renderLoop (WithFps.core p).
Proof. reflexivity. Qed.

Lemma core_play (p : Page) :
  WithFps.core (WithFps.play clock p) = Plain.play (WithFps.core p).
Proof. reflexivity. Qed.

Lemma core_pause (p : Page) :
  WithFps.core (WithFps.pause p) = pause (WithFps.core p).
Proof. reflexivity. Qed.

Lemma core_callbacks (l : list nat) (p : Page) :
  WithFps.core (fold_left (fun st _ => WithFps.renderLoop clock st) l p)
  = fold_left (fun st _ => Plain.renderLoop st) l (WithFps.core p).
Proof.
  revert p. induction l as [|x l IH]; intros p; simpl; [reflexivity|].
  now rewrite IH, core_renderLoop.
Qed.

Lemma core_step (p : Page) (e : Event) :
  WithFps.core (WithFps.step clock p e) = Plain.step (WithFps.core p) e.
Proof.
  destruct e as [| |c]; simpl.
  - unfold WithFps.on_animation_frame. now rewrite core_callbacks.
  - unfold WithFps.on_play_pause_click, Plain.on_play_pause_click,
      WithFps.isPaused, isPaused.
    destruct (animationId (WithFps.core p)); reflexivity.
  - reflexivity.
Qed.

Lemma core_run (evs : list Event) (p : Page) :
  WithFps.core (WithFps.run clock evs p) = Plain.run evs (WithFps.core p).
Proof.
  revert p. induction evs as [|e evs IH]; intros p; simpl; [reflexivity|].
  unfold WithFps.run, Plain.run in *. simpl.
  now rewrite IH, core_step.
Qed.

Lemma core_script (button_text fps_text : string) (handle : nat) :
  WithFps.core (WithFps.script clock (WithFps.boot clock button_text fps_text handle))
  = Plain.script (boot_core button_text handle).
Proof. reflexivity. Qed.

End Simulation.

(** ** The page of [index.js] *)

Section PageTheorems.
Context {U : Type} {engine : Engine U} {num : Type} {js : JsNumber num}.
Variable clock : nat -> num.
Local Abbreviation Page := (@WithFps.Page U num).
Local Abbreviation core := (@WithFps.core U num).

(** The page once the script has run and the events [evs] have been
    handled. *)
Local Abbreviation page_after button_text fps_text handle evs :=
  (WithFps.run clock evs
     (WithFps.script clock (WithFps.boot clock button_text fps_text handle))).


(** C7. The play-pause button is a two-state toggle: its listener calls
    [play()] when [isPaused()] holds and [pause()] otherwise; after
    [play()] the game is not paused and after [pause()] it is; so a click
    flips [isPaused()] and two clicks in a row restore it. *)
Theorem play_pause_button_toggles (p : Page) :
  WithFps.on_play_pause_click clock p
  = (if WithFps.isPaused p then WithFps.play clock p else WithFps.pause p)
  /\ WithFps.isPaused (WithFps.play clock p) = false
  /\ WithFps.isPaused (WithFps.pause p) = true
  /\ WithFps.isPaused (WithFps.on_play_pause_click clock p)
     = negb (WithFps.isPaused p)
  /\ WithFps.isPaused
       (WithFps.on_play_pause_click clock (WithFps.on_play_pause_click clock p))
     = WithFps.isPaused p.
Proof.
  assert (Hflip : forall q : Page,
            WithFps.isPaused (WithFps.on_play_pause_click clock q)
            = negb (WithFps.isPaused q)).
  { intros q. unfold WithFps.on_play_pause_click.
    destruct (WithFps.isPaused q); reflexivity. }
  split; [reflexivity|]. split; [reflexivity|]. split; [reflexivity|].
  split; [apply Hflip|].
  rewrite !Hflip. apply negb_involutive.
Qed.

Lemma pending_matches_page (button_text fps_text : string) (handle : nat)
    (evs : list Event) :
  pending_matches (core (page_after button_text fps_text handle evs)).
Proof.
  rewrite core_run, core_script.
  apply pending_matches_run, pending_matches_script.
Qed.

(** C3. Between handlers, [animationId] is [null] exactly when no
    animation-frame callback is pending (and when it is not [null] the
    one pending callback is the one it names); [isPaused()] holds exactly
    when [animationId] is [null]; [pause()] leaves [animationId] [null];
    [renderLoop] leaves in it the handle of the frame it has just
    requested, which is pending. *)
Theorem animationId_null_iff_nothing_pending
    (button_text fps_text : string) (handle : nat) (evs : list Event) :
  let p := page_after button_text fps_text handle evs in
  (animationId (core p) = None <-> frame_callbacks (core p) = [])
  /\ (forall id, animationId (core p) = Some id <-> frame_callbacks (core p) = [id])
  /\ (WithFps.isPaused p = true <-> animationId (core p) = None)
  /\ animationId (core (WithFps.pause p)) = None
  /\ frame_callbacks (core (WithFps.pause p)) = []
  /\ (forall q : Page, animationId (core (WithFps.pause q)) = None)
  /\ (forall q : Page,
        animationId (core (WithFps.renderLoop clock q)) = Some (S (frame_handle (core q)))
        /\ In (S (frame_handle (core q)))
              (frame_callbacks (core (WithFps.renderLoop clock q)))).
Proof.
  intros p.
  pose proof (pending_matches_page button_text fps_text handle evs) as H.
  fold p in H. unfold pending_matches in H.
  split; [|split; [|split; [|split; [|split; [|split]]]]].
  - rewrite H. destruct (animationId (core p)); split; congruence.
  - intros id. rewrite H. destruct (animationId (core p)); split; congruence.
  - unfold WithFps.isPaused. fold core.
    destruct (animationId (core p)); split; congruence.
  - reflexivity.
  - rewrite core_pause. apply pending_matches_pause. exact H.
  - reflexivity.
  - intros q. split; [reflexivity|].
    rewrite core_renderLoop.
    destruct (renderLoop_fields (core q)) as (_ & -> & _).
    apply in_or_app. right. now left.
Qed.

(** While nothing is pending and [play()] is not invoked, animation
    frames do nothing and only canvas clicks act. *)
Lemma paused_run (evs : list Event) (p : Page) :
  animationId (core p) = None -> frame_callbacks (core p) = [] ->
  play_free evs = true ->
  WithFps.run clock evs p = WithFps.run clock (canvas_clicks evs) p
  /\ animationId (core (WithFps.run clock evs p)) = None
  /\ frame_callbacks (core (WithFps.run clock evs p)) = []
  /\ loop_effects (log (core (WithFps.run clock evs p))) = loop_effects (log (core p))
  /\ WithFps.fps (WithFps.run clock evs p) = WithFps.fps p.
Proof.
  revert p. induction evs as [|e evs IH]; intros p Ha Hc Hfree.
  - repeat split; assumption.
  - simpl in Hfree. apply andb_true_iff in Hfree as [He Hfree].
    unfold WithFps.run in *. destruct e as [| |c]; [|discriminate|].
    + assert (Hidle : WithFps.on_animation_frame clock p = p).
      { unfold WithFps.on_animation_frame. fold core. rewrite Hc. simpl.
        destruct p as [[u a h cbs t l] f r]; simpl in *. now subst. }
      simpl. rewrite Hidle. now apply IH.
    + simpl.
      destruct (IH (WithFps.on_canvas_click c p) Ha Hc Hfree)
        as (H1 & H2 & H3 & H4 & H5).
      repeat split; try assumption.
      rewrite H4. apply loop_effects_on_canvas_click.
Qed.

(** C2, as the code has it. After [pause()], and until [play()] is next
    invoked, no animation-frame callback runs: animation frames leave the
    page as it is, [renderLoop] is not run (no tick, no request for a
    frame, no FPS update), the game stays paused with nothing pending,
    and the only drawing is the redraw that each canvas click does. *)
Theorem paused_page_draws_only_on_canvas_clicks
    (button_text fps_text : string) (handle : nat) (before evs : list Event) :
  play_free evs = true ->
  let q := WithFps.pause (page_after button_text fps_text handle before) in
  let q' := WithFps.run clock evs q in
  q' = WithFps.run clock (canvas_clicks evs) q
  /\ WithFps.isPaused q' = true
  /\ frame_callbacks (core q') = []
  /\ loop_effects (log (core q')) = loop_effects (log (core q))
  /\ WithFps.fps q' = WithFps.fps q.
Proof.
  intros Hfree q q'.
  assert (Hc : frame_callbacks (core q) = []).
  { unfold q. rewrite core_pause.
    apply pending_matches_pause, pending_matches_page. }
  destruct (paused_run evs q eq_refl Hc Hfree) as (H1 & H2 & H3 & H4 & H5).
  repeat split; try assumption.
  unfold WithFps.isPaused. fold core. unfold q'. now rewrite H2.
Qed.

(** C10. For the same events, [index.js] and the script without the FPS
    counter leave the shared state (universe, [animationId], pending
    frames, button text) and the log of engine calls, canvas operations
    and frame requests the same; [fps.render()] changes nothing of
    them. *)
Theorem fps_counter_does_not_change_behaviour
    (button_text fps_text : string) (handle : nat) (evs : list Event) :
  let p := page_after button_text fps_text handle evs in
  let s := Plain.run evs (Plain.script (boot_core button_text handle)) in
  core p = s
  /\ engine_calls (log (core p)) = engine_calls (log s)
  /\ drawing (log (core p)) = drawing (log s)
  /\ (forall q : Page, core (WithFps.fps_render clock q) = core q)
  /\ (forall q : Page,
        core (WithFps.renderLoop clock q) = Plain.renderLoop (core q)).
Proof.
  intros p s.
  assert (H : core p = s) by (unfold p, s; now rewrite core_run, core_script).
  rewrite H. repeat split.
Qed.

End PageTheorems.

(** C2, as stated, fails: on the 4 x 4 page, paused right after the script
    ran, a click on the canvas redraws the grid and the cells although
    [play()] has not been invoked. *)
Lemma pause_then_canvas_click_draws :
  play_free [CanvasClick click_inside] = true
  /\ ~ no_drawing_until_play (engine := engine4x4) (js := xnum_number)
         clock16 page4x4 [CanvasClick click_inside].
Proof.
  split; [reflexivity|].
  intros H. specialize (H eq_refl).
  apply (f_equal (@List.length CanvasOp)) in H.
  vm_compute in H. discriminate H.
Qed.

Lemma paused_page_draws_only_on_canvas_clicks_witness :
  play_free [AnimationFrame; CanvasClick click_inside; AnimationFrame] = true
  /\ WithFps.isPaused
       (WithFps.run (engine := engine4x4) (js := xnum_number) clock16
          [AnimationFrame; CanvasClick click_inside; AnimationFrame]
          (WithFps.pause
             (WithFps.run (engine := engine4x4) (js := xnum_number) clock16
                [AnimationFrame] page4x4)))
     = true.
Proof.
  split; [reflexivity|].
  exact (proj1 (proj2
    (paused_page_draws_only_on_canvas_clicks (engine := engine4x4)
       (js := xnum_number) clock16 "" "" 0 [AnimationFrame]
       [AnimationFrame; CanvasClick click_inside; AnimationFrame] eq_refl))).
Defined.

Lemma laid_out_click_inside : laid_out click_inside.
Proof. split; reflexivity. Defined.

Lemma canvas_click_toggles_then_redraws_witness :
  laid_out click_inside
  /\ engine_calls
       (skipn (List.length (log (WithFps.core page4x4)))
          (log (WithFps.core
                  (WithFps.on_canvas_click (engine := engine4x4) click_inside page4x4))))
     = [ToggleCell 1 1; Cells].
Proof.
  split; [exact laid_out_click_inside|].
  exact (proj1 (proj2 (proj2
    (canvas_click_toggles_then_redraws (engine := engine4x4)
       click_inside page4x4 laid_out_click_inside)))).
Defined.

Lemma laid_out_click_corner : laid_out click_corner.
Proof. split; reflexivity. Defined.

Lemma canvas_click_clamped_from_above_witness :
  laid_out click_corner
  /\ (@click_row _ engine4x4 click_corner <= Z.of_nat (@height _ engine4x4) - 1)%Z
  /\ (@click_col _ engine4x4 click_corner <= Z.of_nat (@width _ engine4x4) - 1)%Z.
Proof.
  split; [exact laid_out_click_corner|].
  pose proof (canvas_click_clamped_from_above (engine := engine4x4)
                click_corner page4x4 laid_out_click_corner) as H.
  exact (conj (proj1 (proj2 H)) (proj1 (proj2 (proj2 H)))).
Defined.

(** ** The FPS counter *)

Section FpsTheorems.
Context {num : Type} {js : JsNumber num}.

Lemma length_push_frame (x : num) (fs : list num) :
  List.length fs <= 100 -> List.length (Fps.push_frame x fs) <= 100.
Proof.
  intros H. unfold Fps.push_frame.
  destruct (Nat.ltb_spec 100 (List.length (fs ++ [x]))) as [Hlt|Hge].
  - destruct fs as [|y fs]; simpl in *; [lia|].
    rewrite length_app in *. simpl in *. lia.
  - exact Hge.
Qed.

Lemma push_frame_skipn (x : num) (fs : list num) :
  List.length fs <= 100 ->
  Fps.push_frame x fs = skipn (List.length fs + 1 - 100) (fs ++ [x]).
Proof.
  intros H. unfold Fps.push_frame. rewrite length_app. simpl List.length.
  destruct (Nat.ltb_spec 100 (List.length fs + 1)) as [Hlt|Hge].
  - replace (List.length fs + 1 - 100) with 1 by lia.
    destruct fs; reflexivity.
  - replace (List.length fs + 1 - 100) with 0 by lia. reflexivity.
Qed.

Lemma frames_render (now : num) (f : Fps.t num) :
  Fps.frames (Fps.render now f)
  = Fps.push_frame
      (num_mul (num_div (num_lit 1) (num_sub now (Fps.lastFrameTimeStamp f)))
               (num_lit 1000))
      (Fps.frames f).
Proof.
  unfold Fps.render. destruct (Fps.stats _) as [[sum min] max]. reflexivity.
Qed.

Lemma text_render (now : num) (f : Fps.t num) :
  Fps.text (Fps.render now f)
  = Fps.display
      (num_mul (num_div (num_lit 1) (num_sub now (Fps.lastFrameTimeStamp f)))
               (num_lit 1000))
      (Fps.frames (Fps.render now f)).
Proof.
  rewrite frames_render. unfold Fps.render, Fps.display.
  destruct (Fps.stats _) as [[sum min] max]. reflexivity.
Qed.

Lemma length_frames_renders (nows : list num) (f : Fps.t num) :
  List.length (Fps.frames f) <= 100 ->
  List.length (Fps.frames (fold_left (fun g t => Fps.render t g) nows f)) <= 100.
Proof.
  revert f. induction nows as [|t nows IH]; intros f H; simpl; [exact H|].
  apply IH. rewrite frames_render. now apply length_push_frame.
Qed.

(** The loop of [render] computes the three statistics side by side:
    the sum, the minimum and the maximum of the entries it is given. *)
Lemma stats_components (fs : list num) :
  Fps.stats fs
  = (fold_left num_add fs (num_lit 0),
     fold_left (fun m x => Math_min x m) fs Infinity,
     fold_left (fun m x => Math_max x m) fs (num_neg Infinity)).
Proof.
  unfold Fps.stats.
  generalize (num_lit 0) Infinity (num_neg Infinity).
  induction fs as [|x fs IH]; intros sum min max; simpl; [reflexivity|].
  apply IH.
Qed.

(** C8. After every call of [fps.render()], in any sequence of calls on
    the object since it was constructed, the buffer has at most 100
    entries: it is the old buffer with the new timing pushed, less its
    oldest entry when that made 101; and the text displayed gives the
    latest timing and the mean, the minimum and the maximum of exactly the
    entries the buffer then holds, each rounded. *)
Theorem fps_buffer_keeps_latest_100
    (t0 : num) (text0 : string) (nows : list num) (now : num) :
  let f := fold_left (fun g t => Fps.render t g) nows (Fps.new t0 text0) in
  let f' := Fps.render now f in
  let latest :=
    num_mul (num_div (num_lit 1) (num_sub now (Fps.lastFrameTimeStamp f)))
            (num_lit 1000) in
  List.length (Fps.frames f') <= 100
  /\ Fps.frames f'
     = skipn (List.length (Fps.frames f) + 1 - 100) (Fps.frames f ++ [latest])
  /\ Fps.text f'
     = ("Frames per Second:" ++ String "010" ""
        ++ "         latest = " ++ num_to_string (Math_round latest)
        ++ String "010" ""
        ++ "avg of last 100 = "
        ++ num_to_string
             (Math_round
                (num_div (fold_left num_add (Fps.frames f') (num_lit 0))
                         (num_lit (Z.of_nat (List.length (Fps.frames f'))))))
        ++ String "010" ""
        ++ "min of last 100 = "
        ++ num_to_string
             (Math_round
                (fold_left (fun m x => Math_min x m) (Fps.frames f') Infinity))
        ++ String "010" ""
        ++ "max of last 100 = "
        ++ num_to_string
             (Math_round
                (fold_left (fun m x => Math_max x m) (Fps.frames f')
                           (num_neg Infinity))))%string.
Proof.
  intros f f' latest.
  assert (Hf : List.length (Fps.frames f) <= 100).
  { unfold f. apply length_frames_renders. simpl. lia. }
  split; [|split].
  - unfold f'. rewrite frames_render. now apply length_push_frame.
  - unfold f'. rewrite frames_render. now apply push_frame_skipn.
  - unfold f'. rewrite text_render. unfold Fps.display.
    rewrite stats_components. reflexivity.
Qed.

End FpsTheorems.

(** On the page, the buffer of the [fps] object never exceeds 100 entries:
    only [renderLoop] touches it, through [fps.render()]. *)
Section PageFps.
Context {U : Type} {engine : Engine U} {num : Type} {js : JsNumber num}.
Variable clock : nat -> num.
Local Abbreviation Page := (@WithFps.Page U num).

Lemma buffer_bounded_renderLoop (p : Page) :
  buffer_bounded p -> buffer_bounded (WithFps.renderLoop clock p).
Proof.
  unfold buffer_bounded. intros H.
  change (WithFps.fps (WithFps.renderLoop clock p))
    with (Fps.render (clock (WithFps.clock_reads p)) (WithFps.fps p)).
  rewrite frames_render. now apply length_push_frame.
Qed.

Lemma buffer_bounded_callbacks (l : list nat) (p : Page) :
  buffer_bounded p ->
  buffer_bounded (fold_left (fun st _ => WithFps.renderLoop clock st) l p).
Proof.
  revert p. induction l as [|x l IH]; intros p H; simpl; [exact H|].
  now apply IH, buffer_bounded_renderLoop.
Qed.

Lemma buffer_bounded_step (p : Page) (e : Event) :
  buffer_bounded p -> buffer_bounded (WithFps.step clock p e).
Proof.
  intros H. destruct e as [| |c]; simpl.
  - unfold WithFps.on_animation_frame. now apply buffer_bounded_callbacks.
  - unfold WithFps.on_play_pause_click.
    destruct (WithFps.isPaused p); [|exact H].
    unfold WithFps.play. now apply buffer_bounded_renderLoop.
  - exact H.
Qed.

Lemma buffer_bounded_page (button_text fps_text : string) (handle : nat)
    (evs : list Event) :
  buffer_bounded
    (WithFps.run clock evs
       (WithFps.script clock (WithFps.boot clock button_text fps_text handle))).
Proof.
  unfold WithFps.run.
  assert (H0 : buffer_bounded
                 (WithFps.script clock
                    (WithFps.boot clock button_text fps_text handle))).
  { unfold WithFps.script, WithFps.play.
    apply buffer_bounded_renderLoop. unfold buffer_bounded. simpl. lia. }
  revert H0. generalize (WithFps.script clock
                           (WithFps.boot clock button_text fps_text handle)).
  induction evs as [|e evs IH]; intros p H; simpl; [exact H|].
  now apply IH, buffer_bounded_step.
Qed.

End PageFps.

(** * Further properties of the script *)

(** ** Cell indices and the packed bits *)

Section Indices.
Context {U : Type} {engine : Engine U}.

(** X1. [getIndex] numbers the cells of the grid without collision: an
    in-range cell gets an index below [width * height], and the row and
    the column are recovered from it by division by [width]. *)
Theorem getIndex_in_range_and_invertible (row col : nat) :
  row < height -> col < width ->
  getIndex row col < width * height
  /\ getIndex row col / width = row
  /\ getIndex row col mod width = col
  /\ (forall row' col', col' < width ->
        getIndex row' col' = getIndex row col -> row' = row /\ col' = col).
Proof.
  intros Hrow Hcol. unfold getIndex.
  assert (Hdm : forall r c, c < width ->
            (r * width + c) / width = r /\ (r * width + c) mod width = c).
  { intros r c Hc. split.
    - symmetry. apply (Nat.div_unique _ _ _ c); lia.
    - symmetry. apply (Nat.mod_unique _ _ r); lia. }
  destruct (Hdm row col Hcol) as [Hd Hm].
  split; [nia|]. split; [exact Hd|]. split; [exact Hm|].
  intros row' col' Hcol' Heq.
  destruct (Hdm row' col' Hcol') as [Hd' Hm'].
  rewrite Heq in Hd', Hm'. split; congruence.
Qed.

(** X2. A bit whose byte lies outside the array reads as not set:
    [bitIsSet] never fails, it answers [false]. *)
Theorem bitIsSet_outside_array (n : nat) (arr : list byte) :
  List.length arr <= n / 8 -> bitIsSet n arr = false.
Proof.
  intros H. rewrite bitIsSet_packed_bit. unfold packed_bit.
  apply nth_error_None in H. now rewrite H.
Qed.

(** X3. When the number of cells is a multiple of 8 and the buffer holds
    the whole view, the view has [width * height / 8] bytes, every cell's
    byte is the engine's byte at [cellsPtr + n / 8], and the colour
    [drawCells] chooses for the cell is that of the engine's bit. *)
Theorem drawCells_shows_engine_bits (u : U) (row col : nat) :
  (width * height) mod 8 = 0 ->
  universe_cells u + width * height / 8 <= List.length (memory_buffer u) ->
  row < height -> col < width ->
  let n := getIndex row col in
  let packed := skipn (universe_cells u) (memory_buffer u) in
  List.length (cells_view u) = width * height / 8
  /\ nth_error (cells_view u) (n / 8)
     = nth_error (memory_buffer u) (universe_cells u + n / 8)
  /\ bitIsSet n (cells_view u) = packed_bit packed n
  /\ nth_error (cell_ops (cells_view u) row col) 0
     = Some (FillStyle (if packed_bit packed n then ALIVE_COLOR else DEAD_COLOR)).
Proof.
  intros Hmod Hbuf Hrow Hcol n packed.
  assert (Hn : n / 8 < width * height / 8).
  { apply byte_index_inside_view; [exact Hmod|].
    unfold n, getIndex. nia. }
  assert (Hnth : nth_error (cells_view u) (n / 8) = nth_error packed (n / 8)).
  { unfold cells_view, Uint8Array. rewrite nth_error_firstn.
    apply Nat.ltb_lt in Hn. now rewrite Hn. }
  assert (Hbit : bitIsSet n (cells_view u) = packed_bit packed n).
  { rewrite bitIsSet_packed_bit. unfold packed_bit. now rewrite Hnth. }
  split.
  { unfold cells_view, Uint8Array. rewrite length_firstn, length_skipn. lia. }
  split; [rewrite Hnth; apply nth_error_skipn|].
  split; [exact Hbit|].
  simpl. fold n. now rewrite Hbit.
Qed.

End Indices.

Lemma drawCells_shows_engine_bits_witness :
  (@width _ engine4x4 * @height _ engine4x4) mod 8 = 0
  /\ bitIsSet (@getIndex _ engine4x4 3 3)
       (@cells_view _ engine4x4 [x05; x80; x00; x00]%byte)
     = packed_bit [x05; x80; x00; x00]%byte (@getIndex _ engine4x4 3 3).
Proof.
  assert (H1 : (@width _ engine4x4 * @height _ engine4x4) mod 8 = 0) by reflexivity.
  assert (H2 : @universe_cells _ engine4x4 [x05; x80; x00; x00]%byte
               + @width _ engine4x4 * @height _ engine4x4 / 8
               <= List.length (@memory_buffer _ engine4x4 [x05; x80; x00; x00]%byte))
    by (vm_compute; lia).
  assert (H3 : 3 < @height _ engine4x4) by (vm_compute; lia).
  assert (H4 : 3 < @width _ engine4x4) by (vm_compute; lia).
  split; [exact H1|].
  exact (proj1 (proj2 (proj2
    (drawCells_shows_engine_bits (engine := engine4x4)
       [x05; x80; x00; x00]%byte 3 3 H1 H2 H3 H4)))).
Defined.

Lemma getIndex_in_range_and_invertible_witness :
  2 < @height _ engine4x4 /\ 3 < @width _ engine4x4
  /\ @getIndex _ engine4x4 2 3 / @width _ engine4x4 = 2.
Proof.
  assert (H1 : 2 < @height _ engine4x4) by (vm_compute; lia).
  assert (H2 : 3 < @width _ engine4x4) by (vm_compute; lia).
  split; [exact H1|]. split; [exact H2|].
  exact (proj1 (proj2
    (getIndex_in_range_and_invertible (engine := engine4x4) 2 3 H1 H2))).
Defined.

Lemma bitIsSet_outside_array_witness :
  List.length [x01]%byte <= 8 / 8 /\ bitIsSet 8 [x01]%byte = false.
Proof.
  assert (H : List.length [x01]%byte <= 8 / 8) by (vm_compute; lia).
  split; [exact H|].
  exact (bitIsSet_outside_array 8 [x01]%byte H).
Defined.

(** ** Where the script draws *)

Lemma path_points_app (l1 l2 : list CanvasOp) :
  path_points (l1 ++ l2) = path_points l1 ++ path_points l2.
Proof. apply flat_map_app. Qed.

Lemma filled_rects_app (l1 l2 : list CanvasOp) :
  filled_rects (l1 ++ l2) = filled_rects l1 ++ filled_rects l2.
Proof. apply flat_map_app. Qed.

Lemma in_path_points (ops : list CanvasOp) (x y : Z) :
  In (x, y) (path_points ops) -> In (MoveTo x y) ops \/ In (LineTo x y) ops.
Proof.
  unfold path_points. rewrite in_flat_map. intros (op & Hin & Hpt).
  destruct op; simpl in Hpt; try contradiction;
    destruct Hpt as [Heq|[]]; injection Heq as -> ->; auto.
Qed.

Lemma in_filled_rects (ops : list CanvasOp) (x y w h : Z) :
  In (x, y, w, h) (filled_rects ops) -> In (FillRect x y w h) ops.
Proof.
  unfold filled_rects. rewrite in_flat_map. intros (op & Hin & Hr).
  destruct op; simpl in Hr; try contradiction.
  destruct Hr as [Heq|[]]. now injection Heq as -> -> -> ->.
Qed.

(** The points, or the rectangles, of a loop whose body always yields [k]
    of them. *)
Lemma length_collected_blocks {A B} (collect : list A -> list B)
    (f : nat -> list A) (k : nat) :
  (forall l1 l2, collect (l1 ++ l2) = collect l1 ++ collect l2) ->
  collect [] = [] ->
  (forall i, List.length (collect (f i)) = k) ->
  forall l, List.length (collect (flat_map f l)) = List.length l * k.
Proof.
  intros Happ Hnil Hk l. induction l as [|i l IH]; simpl.
  - now rewrite Hnil.
  - now rewrite Happ, length_app, Hk, IH.
Qed.

Section Geometry.
Context {U : Type} {engine : Engine U}.

(** The end points of the lines of [drawGrid] lie on the canvas, and
    [drawGrid] fills nothing. *)
Lemma drawGrid_points_on_canvas :
  List.length (path_points drawGrid_ops) = 2 * (width + 1) + 2 * (height + 1)
  /\ (forall x y, In (x, y) (path_points drawGrid_ops) -> on_canvas x y)
  /\ filled_rects drawGrid_ops = [].
Proof.
  split; [|split].
  - unfold drawGrid_ops. rewrite !path_points_app, !length_app.
    rewrite !(length_collected_blocks path_points _ 2)
      by (reflexivity || apply path_points_app).
    rewrite !length_seq. simpl. lia.
  - intros x y Hin. apply in_path_points in Hin.
    unfold drawGrid_ops in Hin. rewrite !in_app_iff, !in_flat_map in Hin.
    unfold on_canvas, canvas_width, canvas_height.
    set (six := (CELL_SIZE + 1)%Z) in *.
    assert (Hsix : six = 6%Z) by reflexivity. clearbody six.
    destruct Hin as [Hin|Hin];
      repeat match goal with
             | H : _ \/ _ |- _ => destruct H
             | H : exists _, _ |- _ => destruct H as (? & ?%in_seq & ?)
             | H : In _ (_ :: _) |- _ => cbn [In] in H
             | H : False |- _ => contradiction
             | H : @eq CanvasOp _ _ |- _ =>
                 first [discriminate H | injection H as <- <-]
             end;
      subst six; lia.
  - unfold drawGrid_ops. rewrite !filled_rects_app.
    assert (Hnone : forall (f : nat -> list CanvasOp) l,
              (forall i, filled_rects (f i) = []) ->
              filled_rects (flat_map f l) = []).
    { intros f l Hf. induction l as [|i l IH]; simpl; [reflexivity|].
      now rewrite filled_rects_app, Hf, IH. }
    rewrite !Hnone by reflexivity. reflexivity.
Qed.

(** The operations of [drawGrid] by position: the two that open it, then
    one [moveTo] and one [lineTo] per line, then [stroke]. *)
Lemma drawGrid_ops_by_position (i j : nat) :
  i <= width -> j <= height ->
  nth_error drawGrid_ops 0 = Some BeginPath
  /\ nth_error drawGrid_ops 1 = Some (StrokeStyle GRID_COLOR)
  /\ nth_error drawGrid_ops (2 + 2 * i) = Some (MoveTo (Z.of_nat i * 6 + 1) 0)
  /\ nth_error drawGrid_ops (3 + 2 * i)
     = Some (LineTo (Z.of_nat i * 6 + 1) canvas_height)
  /\ nth_error drawGrid_ops (2 + 2 * (width + 1) + 2 * j)
     = Some (MoveTo 0 (Z.of_nat j * 6 + 1))
  /\ nth_error drawGrid_ops (3 + 2 * (width + 1) + 2 * j)
     = Some (LineTo canvas_width (Z.of_nat j * 6 + 1))
  /\ nth_error drawGrid_ops (2 + 2 * (width + 1) + 2 * (height + 1)) = Some Stroke
  /\ List.length drawGrid_ops = 3 + 2 * (width + 1) + 2 * (height + 1).
Proof.
  intros Hi Hj. unfold drawGrid_ops.
  set (vertical := fun i : nat =>
         [MoveTo (Z.of_nat i * (CELL_SIZE + 1) + 1) 0;
          LineTo (Z.of_nat i * (CELL_SIZE + 1) + 1)
                 ((CELL_SIZE + 1) * Z.of_nat height + 1)]).
  set (horizontal := fun j : nat =>
         [MoveTo 0 (Z.of_nat j * (CELL_SIZE + 1) + 1);
          LineTo ((CELL_SIZE + 1) * Z.of_nat width + 1)
                 (Z.of_nat j * (CELL_SIZE + 1) + 1)]).
  assert (Hv : List.length (flat_map vertical (seq 0 (S width))) = 2 * (width + 1)).
  { rewrite (length_flat_map_blocks vertical 2) by reflexivity.
    rewrite length_seq. lia. }
  assert (Hh : List.length (flat_map horizontal (seq 0 (S height))) = 2 * (height + 1)).
  { rewrite (length_flat_map_blocks horizontal 2) by reflexivity.
    rewrite length_seq. lia. }
  assert (Hvi : forall k, k < 2 ->
            nth_error ([BeginPath; StrokeStyle GRID_COLOR]
                         ++ flat_map vertical (seq 0 (S width))
                         ++ flat_map horizontal (seq 0 (S height)) ++ [Stroke])
                      (2 + 2 * i + k)
            = nth_error (vertical i) k).
  { intros k Hk. rewrite nth_error_app2 by (simpl; lia).
    rewrite nth_error_app1 by (rewrite Hv; simpl; lia).
    replace (2 + 2 * i + k - List.length [BeginPath; StrokeStyle GRID_COLOR])
      with (i * 2 + k) by (simpl; lia).
    now rewrite (nth_error_flat_map_blocks vertical 2) by (reflexivity || lia). }
  assert (Hhj : forall k, k < 2 ->
            nth_error ([BeginPath; StrokeStyle GRID_COLOR]
                         ++ flat_map vertical (seq 0 (S width))
                         ++ flat_map horizontal (seq 0 (S height)) ++ [Stroke])
                      (2 + 2 * (width + 1) + 2 * j + k)
            = nth_error (horizontal j) k).
  { intros k Hk. rewrite nth_error_app2 by (simpl; lia).
    rewrite nth_error_app2 by (rewrite Hv; simpl; lia).
    rewrite nth_error_app1 by (rewrite Hv, Hh; simpl; lia).
    replace (2 + 2 * (width + 1) + 2 * j + k
             - List.length [BeginPath; StrokeStyle GRID_COLOR]
             - List.length (flat_map vertical (seq 0 (S width))))
      with (j * 2 + k) by (rewrite Hv; simpl; lia).
    now rewrite (nth_error_flat_map_blocks horizontal 2) by (reflexivity || lia). }
  split; [reflexivity|]. split; [reflexivity|].
  split; [rewrite <- (Nat.add_0_r (2 + 2 * i)), Hvi by lia; reflexivity|].
  split.
  { replace (3 + 2 * i) with (2 + 2 * i + 1) by lia. rewrite Hvi by lia. reflexivity. }
  split; [rewrite <- (Nat.add_0_r (2 + 2 * (width + 1) + 2 * j)), Hhj by lia;
          reflexivity|].
  split.
  { replace (3 + 2 * (width + 1) + 2 * j)
      with (2 + 2 * (width + 1) + 2 * j + 1) by lia.
    rewrite Hhj by lia. reflexivity. }
  split.
  - rewrite nth_error_app2 by (simpl; lia).
    rewrite nth_error_app2 by (rewrite Hv; simpl; lia).
    rewrite nth_error_app2 by (rewrite Hv, Hh; simpl; lia).
    rewrite Hv, Hh.
    replace (2 + 2 * (width + 1) + 2 * (height + 1)
             - List.length [BeginPath; StrokeStyle GRID_COLOR]
             - 2 * (width + 1) - 2 * (height + 1)) with 0 by (simpl; lia).
    reflexivity.
  - rewrite !length_app, Hv, Hh. simpl. lia.
Qed.

(** X4. [drawGrid] begins a path, sets the stroke colour to [GRID_COLOR],
    adds [width + 1] vertical lines, the [i]-th from the top edge of the
    canvas to its bottom edge at [x = 6 * i + 1], then [height + 1]
    horizontal lines, the [j]-th from the left edge to the right edge at
    [y = 6 * j + 1], and strokes them once, at the end; it does nothing
    else, every end point lies on the canvas, and nothing is filled. *)
Theorem drawGrid_lines_on_canvas (i j : nat) :
  i <= width -> j <= height ->
  nth_error drawGrid_ops 0 = Some BeginPath
  /\ nth_error drawGrid_ops 1 = Some (StrokeStyle "#CCCCCC")
  /\ nth_error drawGrid_ops (2 + 2 * i) = Some (MoveTo (Z.of_nat i * 6 + 1) 0)
  /\ nth_error drawGrid_ops (3 + 2 * i)
     = Some (LineTo (Z.of_nat i * 6 + 1) (6 * Z.of_nat height + 1))
  /\ nth_error drawGrid_ops (2 + 2 * (width + 1) + 2 * j)
     = Some (MoveTo 0 (Z.of_nat j * 6 + 1))
  /\ nth_error drawGrid_ops (3 + 2 * (width + 1) + 2 * j)
     = Some (LineTo (6 * Z.of_nat width + 1) (Z.of_nat j * 6 + 1))
  /\ nth_error drawGrid_ops (2 + 2 * (width + 1) + 2 * (height + 1)) = Some Stroke
  /\ List.length drawGrid_ops = 3 + 2 * (width + 1) + 2 * (height + 1)
  /\ canvas_width = (6 * Z.of_nat width + 1)%Z
  /\ canvas_height = (6 * Z.of_nat height + 1)%Z
  /\ (forall x y, In (x, y) (path_points drawGrid_ops) -> on_canvas x y)
  /\ filled_rects drawGrid_ops = [].
Proof.
  intros Hi Hj.
  destruct (drawGrid_ops_by_position i j Hi Hj)
    as (H0 & H1 & H2 & H3 & H4 & H5 & H6 & H7).
  destruct drawGrid_points_on_canvas as (_ & Hon & Hfill).
  repeat (split; [assumption || reflexivity|]). exact Hfill.
Qed.

(** What [drawCells] fills, and that it adds no point to a path. *)
Lemma drawCells_fills_on_canvas (cells : list byte) :
  List.length (filled_rects (drawCells_ops cells)) = width * height
  /\ (forall x y w h, In (x, y, w, h) (filled_rects (drawCells_ops cells)) ->
        w = 5%Z /\ h = 5%Z /\ rect_on_canvas x y w h)
  /\ path_points (drawCells_ops cells) = [].
Proof.
  split; [|split].
  - unfold drawCells_ops. rewrite !filled_rects_app, !length_app.
    rewrite (length_collected_blocks filled_rects _ (width * 1)).
    + rewrite length_seq. simpl. lia.
    + apply filled_rects_app.
    + reflexivity.
    + intros row.
      rewrite (length_collected_blocks filled_rects _ 1)
        by (reflexivity || apply filled_rects_app).
      now rewrite length_seq.
  - intros x y w h Hin. apply in_filled_rects in Hin.
    unfold drawCells_ops in Hin. rewrite !in_app_iff, !in_flat_map in Hin.
    destruct Hin as [Hin|[(row & Hrow%in_seq & Hin)|Hin]].
    + destruct Hin as [Heq|[]]. discriminate Heq.
    + apply in_flat_map in Hin. destruct Hin as (col & Hcol%in_seq & Hin).
      unfold cell_ops in Hin. simpl in Hin.
      destruct Hin as [Heq|[Heq|[]]]; [discriminate Heq|].
      injection Heq as <- <- <- <-.
      unfold rect_on_canvas, canvas_width, canvas_height, CELL_SIZE.
      repeat split; lia.
    + destruct Hin as [Heq|[]]. discriminate Heq.
  - unfold drawCells_ops. rewrite !path_points_app.
    assert (Hnone : forall (f : nat -> list CanvasOp) l,
              (forall i, path_points (f i) = []) ->
              path_points (flat_map f l) = []).
    { intros f l Hf. induction l as [|i l IH]; simpl; [reflexivity|].
      now rewrite path_points_app, Hf, IH. }
    rewrite Hnone; [reflexivity|].
    intros row. apply Hnone. reflexivity.
Qed.

(** X5. [drawCells] begins a new path, then only sets fill colours and
    fills rectangles, one 5 x 5 rectangle per cell and each within the
    canvas, and ends with [stroke()]: the path it began has received no
    point, so that [stroke()] draws no line. *)
Theorem drawCells_rects_on_canvas (cells : list byte) :
  (exists body,
      drawCells_ops cells = BeginPath :: body ++ [Stroke]
      /\ forallb (fun op => match op with
                            | FillStyle _ | FillRect _ _ _ _ => true
                            | _ => false
                            end) body = true
      /\ List.length body = 2 * (width * height))
  /\ List.length (filled_rects (drawCells_ops cells)) = width * height
  /\ (forall x y w h, In (x, y, w, h) (filled_rects (drawCells_ops cells)) ->
        w = 5%Z /\ h = 5%Z /\ rect_on_canvas x y w h)
  /\ path_points (drawCells_ops cells) = [].
Proof.
  split; [|apply drawCells_fills_on_canvas].
  exists (flat_map (fun row => flat_map (fun col => cell_ops cells row col)
                                        (seq 0 width))
                   (seq 0 height)).
  split; [reflexivity|].
  assert (Hall : forall (f : nat -> list CanvasOp) (test : CanvasOp -> bool) l,
            (forall i, forallb test (f i) = true) ->
            forallb test (flat_map f l) = true).
  { intros f test l Hf. induction l as [|i l IH]; simpl; [reflexivity|].
    now rewrite forallb_app, Hf, IH. }
  split.
  - apply Hall. intros row. apply Hall. reflexivity.
  - rewrite (length_flat_map_blocks _ (width * 2)).
    + rewrite length_seq. lia.
    + intros row. rewrite (length_flat_map_blocks _ 2) by reflexivity.
      now rewrite length_seq.
Qed.

(** X6. The rectangles of two different cells do not overlap: they are
    apart in the horizontal or in the vertical direction. *)
Theorem cell_rects_do_not_overlap (cells cells' : list byte)
    (row col row' col' : nat) (x y w h x' y' w' h' : Z) :
  nth_error (cell_ops cells row col) 1 = Some (FillRect x y w h) ->
  nth_error (cell_ops cells' row' col') 1 = Some (FillRect x' y' w' h') ->
  (row, col) <> (row', col') ->
  (x + w < x' \/ x' + w' < x \/ y + h < y' \/ y' + h' < y)%Z.
Proof.
  unfold cell_ops, CELL_SIZE. simpl.
  intros H H' Hne. injection H as <- <- <- <-. injection H' as <- <- <- <-.
  assert (Hcases : row <> row' \/ col <> col').
  { destruct (Nat.eq_dec row row') as [->|]; [right|left; assumption].
    intros ->. now apply Hne. }
  lia.
Qed.

End Geometry.

Lemma drawGrid_lines_on_canvas_witness :
  4 <= @width _ engine4x4 /\ 0 <= @height _ engine4x4
  /\ nth_error (@drawGrid_ops _ engine4x4) 11 = Some (LineTo 25 25)
  /\ nth_error (@drawGrid_ops _ engine4x4) 12 = Some (MoveTo 0 1).
Proof.
  assert (H1 : 4 <= @width _ engine4x4) by (vm_compute; lia).
  assert (H2 : 0 <= @height _ engine4x4) by (vm_compute; lia).
  split; [exact H1|]. split; [exact H2|].
  pose proof (drawGrid_lines_on_canvas (engine := engine4x4) 4 0 H1 H2)
    as (_ & _ & _ & H3 & H4 & _).
  exact (conj H3 H4).
Defined.

Lemma cell_rects_do_not_overlap_witness :
  nth_error (@cell_ops _ engine4x4 [] 0 0) 1 = Some (FillRect 1 1 5 5)
  /\ nth_error (@cell_ops _ engine4x4 [] 0 1) 1 = Some (FillRect 7 1 5 5)
  /\ (0, 0) <> (0, 1)
  /\ (1 + 5 < 7 \/ 7 + 5 < 1 \/ 1 + 5 < 1 \/ 1 + 5 < 1)%Z.
Proof.
  assert (H1 : nth_error (@cell_ops _ engine4x4 [] 0 0) 1 = Some (FillRect 1 1 5 5))
    by reflexivity.
  assert (H2 : nth_error (@cell_ops _ engine4x4 [] 0 1) 1 = Some (FillRect 7 1 5 5))
    by reflexivity.
  assert (H3 : (0, 0) <> (0, 1)) by discriminate.
  split; [exact H1|]. split; [exact H2|]. split; [exact H3|].
  exact (cell_rects_do_not_overlap (engine := engine4x4) [] [] 0 0 0 1
           1 1 5 5 7 1 5 5 H1 H2 H3).
Defined.

(** ** From a click back to a cell *)

Section ClickCells.
Context {U : Type} {engine : Engine U}.

(** X7. A click whose canvas coordinates, as the listener computes them,
    fall inside the rectangle that [drawCells] fills for the cell in row
    [row] and column [col] (from [6 * col + 1] and [6 * row + 1], 5 wide
    and 5 high) toggles that cell. *)
Theorem click_inside_cell_rect_toggles_that_cell (c : Click) (row col : nat) :
  laid_out c -> row < height -> col < width ->
  (inject_Z (Z.of_nat col * (CELL_SIZE + 1) + 1) <= canvasLeft c)%Q ->
  (canvasLeft c < inject_Z (Z.of_nat col * (CELL_SIZE + 1) + 1 + CELL_SIZE))%Q ->
  (inject_Z (Z.of_nat row * (CELL_SIZE + 1) + 1) <= canvasTop c)%Q ->
  (canvasTop c < inject_Z (Z.of_nat row * (CELL_SIZE + 1) + 1 + CELL_SIZE))%Q ->
  click_row c = Z.of_nat row /\ click_col c = Z.of_nat col
  /\ forall s : Core U,
       universe (on_canvas_click c s)
       = universe_toggle_cell (universe s) (Z.of_nat row) (Z.of_nat col).
Proof.
  intros _ Hrow Hcol Hx1 Hx2 Hy1 Hy2.
  pose proof width_u32 as Hw32. pose proof height_u32 as Hh32.
  assert (Hin : forall (t : Q) (k : nat),
            (Z.of_nat k < 2 ^ 32)%Z ->
            (inject_Z (Z.of_nat k * (CELL_SIZE + 1) + 1) <= round64 t)%Q ->
            (round64 t < inject_Z (Z.of_nat k * (CELL_SIZE + 1) + 1 + CELL_SIZE))%Q ->
            Qfloor (round64 (round64 t / inject_Z (CELL_SIZE + 1))) = Z.of_nat k).
  { intros t k Hk Hlo Hhi.
    assert (Hge : (Z.of_nat k
                   <= Qfloor (round64 (round64 t / inject_Z (CELL_SIZE + 1))))%Z).
    { apply Qfloor_div6_ge; [lia|].
      eapply Qle_trans; [|exact Hlo]. rewrite <- Zle_Qle.
      unfold CELL_SIZE. lia. }
    assert (Hlt : (round64 (round64 t / 6) < inject_Z (Z.of_nat k + 1))%Q).
    { apply round64_div6_lt; [lia| |].
      - eapply Qle_trans; [|exact Hlo].
        change 1%Q with (inject_Z 1). rewrite <- Zle_Qle. unfold CELL_SIZE. lia.
      - eapply Qlt_le_trans; [exact Hhi|]. rewrite <- Zle_Qle.
        unfold CELL_SIZE. lia. }
    pose proof (Qfloor_le (round64 (round64 t / 6))) as Hfl.
    assert (Hz : (inject_Z (Qfloor (round64 (round64 t / 6)))
                  < inject_Z (Z.of_nat k + 1))%Q)
      by (eapply Qle_lt_trans; eassumption).
    rewrite <- Zlt_Qlt in Hz.
    change (inject_Z (CELL_SIZE + 1)) with 6%Q in *. lia. }
  assert (Hr : click_row c = Z.of_nat row).
  { unfold click_row. unfold canvasTop in *.
    rewrite (Hin _ row) by (assumption || lia). lia. }
  assert (Hc : click_col c = Z.of_nat col).
  { unfold click_col. unfold canvasLeft in *.
    rewrite (Hin _ col) by (assumption || lia). lia. }
  split; [exact Hr|]. split; [exact Hc|].
  intros s. unfold on_canvas_click. simpl. now rewrite Hr, Hc.
Qed.

(** X8. A click at or below the canvas's top edge and at or right of its
    left edge, on a universe that has cells, always passes a row and a
    column inside the grid. *)
Theorem click_on_canvas_is_in_grid (c : Click) :
  laid_out c -> 0 < height -> 0 < width ->
  (0 <= canvasTop c)%Q -> (0 <= canvasLeft c)%Q ->
  (0 <= click_row c < Z.of_nat height)%Z
  /\ (0 <= click_col c < Z.of_nat width)%Z.
Proof.
  intros _ Hh Hw Htop Hleft.
  apply (Qfloor_div6_ge _ 0) in Htop; [|lia].
  apply (Qfloor_div6_ge _ 0) in Hleft; [|lia].
  unfold click_row, click_col. lia.
Qed.

End ClickCells.

Lemma click_inside_cell_rect_toggles_that_cell_witness :
  laid_out click_inside /\ 1 < @height _ engine4x4 /\ 1 < @width _ engine4x4
  /\ @click_row _ engine4x4 click_inside = 1%Z.
Proof.
  assert (H1 : 1 < @height _ engine4x4) by (vm_compute; lia).
  assert (H2 : 1 < @width _ engine4x4) by (vm_compute; lia).
  split; [exact laid_out_click_inside|]. split; [exact H1|]. split; [exact H2|].
  refine (proj1 (click_inside_cell_rect_toggles_that_cell (engine := engine4x4)
            click_inside 1 1 laid_out_click_inside H1 H2 _ _ _ _));
    vm_compute; congruence.
Defined.

Lemma click_on_canvas_is_in_grid_witness :
  laid_out click_corner /\ 0 < @height _ engine4x4 /\ 0 < @width _ engine4x4
  /\ (0 <= @click_row _ engine4x4 click_corner < Z.of_nat (@height _ engine4x4))%Z.
Proof.
  assert (H1 : 0 < @height _ engine4x4) by (vm_compute; lia).
  assert (H2 : 0 < @width _ engine4x4) by (vm_compute; lia).
  split; [exact laid_out_click_corner|]. split; [exact H1|]. split; [exact H2|].
  refine (proj1 (click_on_canvas_is_in_grid (engine := engine4x4)
            click_corner laid_out_click_corner H1 H2 _ _));
    vm_compute; congruence.
Defined.

(** ** The FPS counter as a sliding window *)

Section FpsWindow.
Context {num : Type} {js : JsNumber num}.

Lemma length_timings (prev : num) (nows : list num) :
  List.length (timings prev nows) = List.length nows.
Proof.
  revert prev. induction nows as [|now rest IH]; intros prev; simpl; [reflexivity|].
  now rewrite IH.
Qed.

Lemma frames_renders_window (nows : list num) (f : Fps.t num) :
  List.length (Fps.frames f) <= 100 ->
  Fps.frames (fold_left (fun g t => Fps.render t g) nows f)
  = skipn (List.length (Fps.frames f) + List.length nows - 100)
          (Fps.frames f ++ timings (Fps.lastFrameTimeStamp f) nows).
Proof.
  revert f. induction nows as [|now rest IH]; intros f Hf.
  - simpl. rewrite app_nil_r.
    now replace (List.length (Fps.frames f) + 0 - 100) with 0 by lia.
  - cbn [fold_left timings].
    assert (Hlen : List.length (Fps.frames (Fps.render now f)) <= 100)
      by (rewrite frames_render; now apply length_push_frame).
    rewrite (IH _ Hlen).
    assert (Hstamp : Fps.lastFrameTimeStamp (Fps.render now f) = now).
    { unfold Fps.render. destruct (Fps.stats _) as [[sum min] max]. reflexivity. }
    rewrite Hstamp, frames_render, push_frame_skipn by exact Hf.
    set (x := num_mul (num_div (num_lit 1) (num_sub now (Fps.lastFrameTimeStamp f)))
                      (num_lit 1000)).
    set (k := List.length (Fps.frames f) + 1 - 100).
    assert (Hk : k <= List.length (Fps.frames f ++ [x]))
      by (rewrite length_app; simpl; lia).
    assert (Hskip : skipn k (Fps.frames f ++ [x]) ++ timings now rest
                    = skipn k ((Fps.frames f ++ [x]) ++ timings now rest)).
    { rewrite (skipn_app k (Fps.frames f ++ [x]) (timings now rest)).
      replace (k - List.length (Fps.frames f ++ [x])) with 0 by lia.
      reflexivity. }
    rewrite Hskip, skipn_skipn, length_skipn, length_app, <- app_assoc.
    simpl List.length. simpl app. f_equal. unfold k. lia.
Qed.

Lemma last_cons_default (l : list num) (t d : num) : last (t :: l) d = last l t.
Proof.
  revert t d. induction l as [|a l IH]; intros t d; [reflexivity|].
  change (last (t :: a :: l) d) with (last (a :: l) d).
  now rewrite (IH a d), (IH a t).
Qed.

Lemma lastFrameTimeStamp_renders (l : list num) (g : Fps.t num) :
  Fps.lastFrameTimeStamp (fold_left (fun g t => Fps.render t g) l g)
  = last l (Fps.lastFrameTimeStamp g).
Proof.
  revert g. induction l as [|t l IH]; intros g; [reflexivity|].
  cbn [fold_left]. rewrite IH, last_cons_default. f_equal.
  unfold Fps.render. destruct (Fps.stats _) as [[sum min] max]. reflexivity.
Qed.

Lemma frames_renders_new (t0 : num) (text0 : string) (nows : list num) :
  Fps.frames (fold_left (fun g t => Fps.render t g) nows (Fps.new t0 text0))
  = skipn (List.length nows - 100) (timings t0 nows).
Proof. rewrite frames_renders_window by (simpl; lia). reflexivity. Qed.

(** X10. After [n] calls of [render] the buffer holds the timings of the
    latest [min n 100] frames, oldest first, and [lastFrameTimeStamp] is
    the time stamp of the latest call (that of the constructor when
    [render] has not been called). *)
Theorem fps_buffer_is_sliding_window (t0 : num) (text0 : string) (nows : list num) :
  let f := fold_left (fun g t => Fps.render t g) nows (Fps.new t0 text0) in
  Fps.frames f = skipn (List.length nows - 100) (timings t0 nows)
  /\ List.length (Fps.frames f) = Nat.min (List.length nows) 100
  /\ Fps.lastFrameTimeStamp f = last nows t0.
Proof.
  intros f.
  assert (Hw : Fps.frames f = skipn (List.length nows - 100) (timings t0 nows))
    by apply frames_renders_new.
  split; [exact Hw|]. split.
  - rewrite Hw, length_skipn, length_timings. lia.
  - unfold f. now rewrite lastFrameTimeStamp_renders.
Qed.

End FpsWindow.

(** ** The loop, the button and the counter over whole runs *)

Lemma count_ticks_app (l1 l2 : list Effect) :
  count_ticks (l1 ++ l2) = count_ticks l1 + count_ticks l2.
Proof. unfold count_ticks. now rewrite filter_app, length_app. Qed.

Lemma count_requests_app (l1 l2 : list Effect) :
  count_requests (l1 ++ l2) = count_requests l1 + count_requests l2.
Proof. unfold count_requests. now rewrite filter_app, length_app. Qed.

Lemma count_ticks_map_Draw (ops : list CanvasOp) : count_ticks (map Draw ops) = 0.
Proof. induction ops; simpl; auto. Qed.

Lemma count_requests_map_Draw (ops : list CanvasOp) : count_requests (map Draw ops) = 0.
Proof. induction ops; simpl; auto. Qed.

Section RunFacts.
Context {U : Type} {engine : Engine U}.

Lemma counts_renderLoop (s : Core U) :
  count_ticks (log (Plain.renderLoop s)) = S (count_ticks (log s))
  /\ count_requests (log (Plain.renderLoop s)) = S (count_requests (log s)).
Proof.
  rewrite log_renderLoop.
  rewrite !count_ticks_app, !count_requests_app,
    !count_ticks_map_Draw, !count_requests_map_Draw.
  unfold count_ticks, count_requests. simpl. lia.
Qed.

Lemma counts_on_canvas_click (c : Click) (s : Core U) :
  count_ticks (log (on_canvas_click c s)) = count_ticks (log s)
  /\ count_requests (log (on_canvas_click c s)) = count_requests (log s).
Proof.
  rewrite log_on_canvas_click.
  rewrite !count_ticks_app, !count_requests_app,
    !count_ticks_map_Draw, !count_requests_map_Draw.
  unfold count_ticks, count_requests. simpl. lia.
Qed.

Lemma counts_pause (s : Core U) :
  count_ticks (log (pause s)) = count_ticks (log s)
  /\ count_requests (log (pause s)) = count_requests (log s).
Proof.
  unfold pause. simpl. rewrite count_ticks_app, count_requests_app.
  unfold count_ticks, count_requests. simpl. lia.
Qed.

(** The button's label and the pending frame, together. *)
Lemma label_matches_renderLoop (s : Core U) :
  playPauseText s = "⏸" -> label_matches (Plain.renderLoop s).
Proof. intros H. unfold label_matches. simpl. exact H. Qed.

Lemma label_matches_step (s : Core U) (e : Event) :
  pending_matches s -> label_matches s -> label_matches (Plain.step s e).
Proof.
  intros Hp Hl. unfold label_matches, pending_matches, isPaused in *.
  destruct e as [| |c]; simpl.
  - unfold Plain.on_animation_frame. rewrite Hp.
    destruct (animationId s) as [id|] eqn:E; cbn [fold_left].
    + apply label_matches_renderLoop. exact Hl.
    + exact Hl.
  - unfold Plain.on_play_pause_click, isPaused.
    destruct (animationId s); reflexivity.
  - exact Hl.
Qed.

Lemma button_and_frame_run (evs : list Event) (s : Core U) :
  pending_matches s -> label_matches s ->
  pending_matches (Plain.run evs s) /\ label_matches (Plain.run evs s).
Proof.
  revert s. induction evs as [|e evs IH]; intros s Hp Hl; [now split|].
  apply IH; [now apply pending_matches_step | now apply label_matches_step].
Qed.

Lemma button_and_frame_script (button_text : string) (handle : nat) :
  pending_matches (Plain.script (boot_core button_text handle))
  /\ label_matches (Plain.script (boot_core button_text handle)).
Proof. split; [apply pending_matches_script | reflexivity]. Qed.

Lemma advances_refl (s : Core U) : advances s s.
Proof. split; reflexivity. Qed.

Lemma advances_trans (s1 s2 s3 : Core U) :
  advances s1 s2 -> advances s2 s3 -> advances s1 s3.
Proof. unfold advances. intros [H1 H2] [H3 H4]. split; lia. Qed.

Lemma advances_renderLoop (s : Core U) : advances s (Plain.renderLoop s).
Proof.
  unfold advances. destruct (counts_renderLoop s) as [-> ->].
  destruct (renderLoop_fields s) as (_ & _ & -> & _). split; lia.
Qed.

Lemma advances_callbacks (l : list nat) (s : Core U) :
  advances s (fold_left (fun st _ => Plain.renderLoop st) l s).
Proof.
  revert s. induction l as [|x l IH]; intros s; [apply advances_refl|].
  cbn [fold_left]. eapply advances_trans; [apply advances_renderLoop | apply IH].
Qed.

Lemma advances_step (s : Core U) (e : Event) : advances s (Plain.step s e).
Proof.
  destruct e as [| |c].
  - change (Plain.step s AnimationFrame) with (Plain.on_animation_frame s).
    unfold Plain.on_animation_frame.
    eapply advances_trans; [|apply advances_callbacks].
    split; reflexivity.
  - change (Plain.step s PlayPauseClick) with (Plain.on_play_pause_click s).
    unfold Plain.on_play_pause_click. destruct (isPaused s).
    + unfold Plain.play.
      eapply advances_trans; [|apply advances_renderLoop]. split; reflexivity.
    + unfold advances. destruct (counts_pause s) as [-> ->]. split; reflexivity.
  - change (Plain.step s (CanvasClick c)) with (on_canvas_click c s).
    unfold advances. destruct (counts_on_canvas_click c s) as [-> ->].
    split; reflexivity.
Qed.

Lemma advances_run (evs : list Event) (s : Core U) : advances s (Plain.run evs s).
Proof.
  revert s. induction evs as [|e evs IH]; intros s; [apply advances_refl|].
  change (Plain.run (e :: evs) s) with (Plain.run evs (Plain.step s e)).
  eapply advances_trans; [apply advances_step | apply IH].
Qed.

Lemma advances_script (button_text : string) (handle : nat) :
  count_ticks (log (Plain.script (boot_core button_text handle))) = 1
  /\ count_requests (log (Plain.script (boot_core button_text handle))) = 1
  /\ frame_handle (Plain.script (boot_core button_text handle)) = S handle.
Proof.
  unfold Plain.script, Plain.play.
  match goal with
  | |- count_ticks (log (Plain.renderLoop ?s)) = _ /\ _ =>
      destruct (counts_renderLoop s) as [-> ->];
      assert (Hlog : log s = map Draw drawGrid_ops
                       ++ [Cells] ++ map Draw (drawCells_ops (cells_view Universe_new)))
  end.
  { change (log (set_playPauseText "⏸" ?s)) with (log s).
    rewrite log_drawCells, log_drawGrid. reflexivity. }
  rewrite Hlog, !count_ticks_app, !count_requests_app,
    !count_ticks_map_Draw, !count_requests_map_Draw.
  repeat split.
Qed.

(** X11. In the script without the FPS counter, after the script and any
    events, the button shows the pause sign exactly while a frame is
    pending and the play sign while the game is paused, and at most one
    frame is ever pending. *)
Theorem plain_button_label_tells_state
    (button_text : string) (handle : nat) (evs : list Event) :
  let s := Plain.run evs (Plain.script (boot_core button_text handle)) in
  playPauseText s = (if isPaused s then "▶" else "⏸")
  /\ List.length (frame_callbacks s) = (if isPaused s then 0 else 1).
Proof.
  intros s.
  destruct (button_and_frame_script button_text handle) as [Hp0 Hl0].
  destruct (button_and_frame_run evs _ Hp0 Hl0) as [Hp Hl]. fold s in Hp, Hl.
  split; [exact Hl|].
  unfold pending_matches in Hp. rewrite Hp. unfold isPaused.
  destruct (animationId s); reflexivity.
Qed.

End RunFacts.

Section PageRuns.
Context {U : Type} {engine : Engine U} {num : Type} {js : JsNumber num}.
Variable clock : nat -> num.
Local Abbreviation Page := (@WithFps.Page U num).
Local Abbreviation core := (@WithFps.core U num).
Local Abbreviation page_after button_text fps_text handle evs :=
  (WithFps.run clock evs
     (WithFps.script clock (WithFps.boot clock button_text fps_text handle))).

(** X12. In [index.js], after the script and any events, the button shows
    the pause sign exactly while a frame is pending and the play sign
    while the game is paused, and at most one frame is ever pending. *)
Theorem button_label_tells_state
    (button_text fps_text : string) (handle : nat) (evs : list Event) :
  let p := page_after button_text fps_text handle evs in
  playPauseText (core p) = (if WithFps.isPaused p then "▶" else "⏸")
  /\ List.length (frame_callbacks (core p)) = (if WithFps.isPaused p then 0 else 1).
Proof.
  intros p.
  destruct (button_and_frame_script button_text handle) as [Hp0 Hl0].
  destruct (button_and_frame_run evs _ Hp0 Hl0) as [Hp Hl].
  assert (Hcore : core p = Plain.run evs (Plain.script (boot_core button_text handle)))
    by (unfold p; now rewrite core_run, core_script).
  rewrite <- Hcore in Hp, Hl.
  unfold label_matches, pending_matches, isPaused in *.
  unfold WithFps.isPaused. fold core.
  split; [exact Hl|]. rewrite Hp. destruct (animationId (core p)); reflexivity.
Qed.

(** X13. An animation frame ticks the universe at most once: on a paused
    page it changes nothing at all; on a running page it does what one
    call of [renderLoop] does, and leaves exactly the newly requested
    frame pending. *)
Theorem animation_frame_runs_renderLoop_once
    (button_text fps_text : string) (handle : nat) (evs : list Event) :
  let p := page_after button_text fps_text handle evs in
  let p' := WithFps.on_animation_frame clock p in
  if WithFps.isPaused p
  then p' = p
  else log (core p') = log (core (WithFps.renderLoop clock p))
       /\ count_ticks (log (core p')) = S (count_ticks (log (core p)))
       /\ WithFps.fps p' = WithFps.fps (WithFps.renderLoop clock p)
       /\ universe (core p') = universe_tick (universe (core p))
       /\ frame_callbacks (core p') = [S (frame_handle (core p))]
       /\ animationId (core p') = Some (S (frame_handle (core p))).
Proof.
  intros p p'.
  pose proof (pending_matches_page clock button_text fps_text handle evs) as Hp.
  fold p in Hp. unfold pending_matches in Hp.
  unfold p', WithFps.on_animation_frame, WithFps.isPaused. fold core.
  rewrite Hp. destruct (animationId (core p)) as [id|] eqn:E; cbn [fold_left].
  - split; [reflexivity|]. split.
    + rewrite core_renderLoop. simpl core.
      destruct (counts_renderLoop
                  (mkCore (universe (core p)) (Some id) (frame_handle (core p)) []
                          (playPauseText (core p)) (log (core p)))) as [Ht _].
      exact Ht.
    + repeat split.
  - destruct p as [[u a h cbs t l] f r]. simpl in *. now subst.
Qed.

Lemma in_step_renderLoop (fps_text : string) (p : Page) :
  in_step clock fps_text p -> in_step clock fps_text (WithFps.renderLoop clock p).
Proof.
  intros (Hr & Hq & Hf). unfold in_step.
  rewrite core_renderLoop.
  destruct (counts_renderLoop (core p)) as [-> ->].
  split; [|split].
  - simpl. now rewrite Hr.
  - now rewrite Hq.
  - rewrite seq_S, map_app, fold_left_app. simpl.
    rewrite <- Hf.
    change (WithFps.fps (WithFps.renderLoop clock p))
      with (Fps.render (clock (WithFps.clock_reads p)) (WithFps.fps p)).
    now rewrite Hr.
Qed.

Lemma in_step_callbacks (fps_text : string) (l : list nat) (p : Page) :
  in_step clock fps_text p ->
  in_step clock fps_text (fold_left (fun st _ => WithFps.renderLoop clock st) l p).
Proof.
  revert p. induction l as [|x l IH]; intros p H; simpl; [exact H|].
  now apply IH, in_step_renderLoop.
Qed.

Lemma in_step_step (fps_text : string) (p : Page) (e : Event) :
  in_step clock fps_text p -> in_step clock fps_text (WithFps.step clock p e).
Proof.
  intros H. destruct e as [| |c]; simpl.
  - unfold WithFps.on_animation_frame. apply in_step_callbacks. exact H.
  - unfold WithFps.on_play_pause_click.
    destruct (WithFps.isPaused p).
    + unfold WithFps.play. apply in_step_renderLoop. exact H.
    + destruct H as (Hr & Hq & Hf). unfold in_step.
      rewrite core_pause.
      destruct (counts_pause (core p)) as [-> ->]. now repeat split.
  - destruct H as (Hr & Hq & Hf). unfold in_step.
    rewrite core_on_canvas_click.
    destruct (counts_on_canvas_click c (core p)) as [-> ->]. now repeat split.
Qed.

Lemma in_step_page (button_text fps_text : string) (handle : nat)
    (evs : list Event) :
  in_step clock fps_text (page_after button_text fps_text handle evs).
Proof.
  unfold WithFps.run.
  assert (H0 : in_step clock fps_text
                 (WithFps.script clock
                    (WithFps.boot clock button_text fps_text handle))).
  { unfold WithFps.script, WithFps.play. apply in_step_renderLoop.
    set (p0 := WithFps.on_core (set_playPauseText "⏸") _).
    assert (Hlog : log (core p0)
                   = map Draw drawGrid_ops
                       ++ [Cells] ++ map Draw (drawCells_ops (cells_view Universe_new))).
    { change (log (core p0))
        with (log (drawCells (drawGrid (boot_core button_text handle)))).
      rewrite log_drawCells, log_drawGrid. reflexivity. }
    assert (Ht : count_ticks (log (core p0)) = 0).
    { rewrite Hlog, !count_ticks_app, !count_ticks_map_Draw. reflexivity. }
    assert (Hq : count_requests (log (core p0)) = 0).
    { rewrite Hlog, !count_requests_app, !count_requests_map_Draw. reflexivity. }
    unfold in_step. fold core. rewrite Ht, Hq. now repeat split. }
  revert H0. generalize (WithFps.script clock
                           (WithFps.boot clock button_text fps_text handle)).
  induction evs as [|e evs IH]; intros p H; simpl; [exact H|].
  now apply IH, in_step_step.
Qed.

(** X14. Over any run, [renderLoop] is the only place that ticks, requests
    a frame or reads the clock, and it does each once: the number of frame
    requests equals the number of ticks, [performance.now()] has been
    read once per tick plus once by the constructor of [fps], and the
    time stamp [fps] keeps is the latest reading. *)
Theorem one_request_and_one_clock_reading_per_tick
    (button_text fps_text : string) (handle : nat) (evs : list Event) :
  let p := page_after button_text fps_text handle evs in
  let n := count_ticks (log (core p)) in
  1 <= n
  /\ count_requests (log (core p)) = n
  /\ WithFps.clock_reads p = S n
  /\ Fps.lastFrameTimeStamp (WithFps.fps p) = clock n.
Proof.
  intros p n.
  destruct (in_step_page button_text fps_text handle evs) as (Hr & Hq & Hf).
  fold p in Hr, Hq, Hf. fold n in Hr, Hq, Hf.
  assert (Hcore : core p = Plain.run evs (Plain.script (boot_core button_text handle)))
    by (unfold p; now rewrite core_run, core_script).
  destruct (advances_run evs (Plain.script (boot_core button_text handle)))
    as [Hmono Hhandle].
  destruct (advances_script button_text handle) as (Ht0 & Hq0 & Hh0).
  rewrite <- Hcore in Hmono, Hhandle. fold n in Hmono.
  rewrite Ht0 in Hmono. rewrite Hq0, Hh0, Hq in Hhandle.
  split; [exact Hmono|]. split; [exact Hq|]. split; [exact Hr|].
  rewrite Hf, lastFrameTimeStamp_renders.
  destruct n as [|m]; [lia|].
  rewrite seq_S, map_app. simpl. apply last_last.
Qed.

(** X15. On the page, after [n] ticks the buffer of [fps] holds the
    timings of the latest [min n 100] frames, computed from the clock
    readings [clock 0, clock 1, ..., clock n] in the order they were
    taken. *)
Theorem page_fps_buffer_is_sliding_window
    (button_text fps_text : string) (handle : nat) (evs : list Event) :
  let p := page_after button_text fps_text handle evs in
  let n := count_ticks (log (core p)) in
  Fps.frames (WithFps.fps p)
  = skipn (n - 100) (timings (clock 0) (map clock (seq 1 n)))
  /\ List.length (Fps.frames (WithFps.fps p)) = Nat.min n 100.
Proof.
  intros p n.
  destruct (in_step_page button_text fps_text handle evs) as (_ & _ & Hf).
  fold p in Hf. fold n in Hf. rewrite Hf.
  pose proof (frames_renders_new (clock 0) fps_text (map clock (seq 1 n))) as Hw.
  rewrite length_map, length_seq in Hw.
  split; [exact Hw|].
  rewrite Hw, length_skipn, length_timings, length_map, length_seq. lia.
Qed.

End PageRuns.

(** ** What is on the canvas *)

Section CanvasCurrent.
Context {U : Type} {engine : Engine U}.








End CanvasCurrent.
